(** * SFNUL object synchronisation: SyncedType, SyncedObject and the
      SynchronizerBase callbacks they drive.

    Embedded from [src/SFNUL/SyncedObject.cpp] and
    [include/SFNUL/SyncedType.hpp].  [SyncedObject.hpp], [SyncedType.inl],
    [Message.hpp] and [Synchronizer.hpp] are not part of the sources at hand:
    what is taken from the specification instead is marked
    "Modelled from the spec:" at the definition. *)

From Stdlib Require Import ZArith Lia.
From Stdlib.Strings Require Import Byte.
From stdpp Require Import gmap list sorting strings.

Local Open Scope Z_scope.

(** ** Message: the frame buffer *)

Module Message.

(** Modelled from the spec: the frame buffer ([Message.hpp] is absent).
    "An ordered, position-tracked byte container": the list holds the
    bytes from the read cursor on; appending writes at the back, reading
    takes from the front and advances the cursor. *)
Definition t : Type := list byte.

Definition byte_of_Z (z : Z) : byte :=
  match Byte.of_N (Z.to_N (z mod 256)) with
  | Some b => b
  | None => x00
  end.

Definition Z_of_byte (b : byte) : Z := Z.of_N (Byte.to_N b).

(** Modelled from the spec: fixed-width values "in a defined byte order";
    the order fixed here is least significant byte first. *)
Fixpoint split (n : nat) (v : Z) : list byte :=
  match n with
  | O => []
  | S n' => byte_of_Z v :: split n' (v / 256)
  end.

Fixpoint combine (bs : list byte) : Z :=
  match bs with
  | [] => 0
  | b :: bs' => Z_of_byte b + 256 * combine bs'
  end.

(** Modelled from the spec: "reading past the end fails with an Underrun
    condition": [None]. *)
Definition read (n : nat) (message : t) : option (list byte * t) :=
  if (n <=? length message)%nat
  then Some (take n message, drop n message)
  else None.

Definition write (bs : list byte) (message : t) : t := message ++ bs.

End Message.

(** ** SyncedType.hpp *)

Inductive SynchronizationType : Type :=
| Static
| Dynamic
| Stream.

(** [enum class SynchronizationType : unsigned char] *)
Definition SynchronizationType_value (u : SynchronizationType) : Z :=
  match u with
  | Static => 0
  | Dynamic => 1
  | Stream => 2
  end.

#[global] Instance SynchronizationType_eq_dec : EqDecision SynchronizationType.
Proof. solve_decision. Defined.

(** The value types [T] of the [SyncedType<T>] typedefs at the end of
    [SyncedType.hpp].  A [float] or [double] is carried as its bit pattern,
    which is what the frame buffer transports. *)
Inductive value_type : Type :=
| Int8 | Uint8 | Int16 | Uint16 | Int32 | Uint32 | Int64 | Uint64
| Float | Double.

#[global] Instance value_type_eq_dec : EqDecision value_type.
Proof. solve_decision. Defined.

Definition size_of (T : value_type) : nat :=
  match T with
  | Int8 | Uint8 => 1
  | Int16 | Uint16 => 2
  | Int32 | Uint32 | Float => 4
  | Int64 | Uint64 | Double => 8
  end.

Definition is_signed (T : value_type) : bool :=
  match T with
  | Int8 | Int16 | Int32 | Int64 => true
  | _ => false
  end.

Definition bits_of (T : value_type) : Z := 8 * Z.of_nat (size_of T).

(** The values a variable of type [T] can hold. *)
Definition in_range (T : value_type) (v : Z) : Prop :=
  if is_signed T
  then - 2 ^ (bits_of T - 1) <= v < 2 ^ (bits_of T - 1)
  else 0 <= v < 2 ^ bits_of T.

#[global] Instance in_range_dec T v : Decision (in_range T v).
Proof. unfold in_range. destruct (is_signed T); apply _. Defined.

(** Storage location of a [SyncedObject] ([SyncedObject*]) and of a
    synchronizer ([SynchronizerBase*]); [nullptr] is [None]. *)
Definition addr : Type := positive.
Definition sync_ptr : Type := positive.

Bind Scope positive_scope with addr.
Bind Scope positive_scope with sync_ptr.

(** [BaseSyncedType] together with the part [SyncedType<T, U>] adds: the
    template arguments and [m_value]. *)
Record BaseSyncedType : Type := mkSyncedType {
  m_owner : option addr;          (* SyncedObject* m_owner = nullptr *)
  m_modified : bool;              (* bool m_modified = true *)
  T_of : value_type;              (* template argument T *)
  U_of : SynchronizationType;     (* template argument U *)
  m_value : Z                     (* value_type m_value *)
}.

Definition with_modified (modified : bool) (f : BaseSyncedType) : BaseSyncedType :=
  {| m_owner := m_owner f; m_modified := modified; T_of := T_of f;
     U_of := U_of f; m_value := m_value f |}.

Definition with_value (v : Z) (f : BaseSyncedType) : BaseSyncedType :=
  {| m_owner := m_owner f; m_modified := m_modified f; T_of := T_of f;
     U_of := U_of f; m_value := v |}.

(** The in-class initialisers of [BaseSyncedType]: what a field holds before
    any constructor body has run. *)
Definition BaseSyncedType_init (T : value_type) (U : SynchronizationType)
    (v : Z) : BaseSyncedType :=
  {| m_owner := None; m_modified := true; T_of := T; U_of := U; m_value := v |}.

Module SyncedType.

(** Modelled from the spec: the synchronisation passes of
    [Serialize( Message&, SynchronizationType sync_type )], whose body
    ([SyncedType.inl]) is absent.  The StreamDue pass and its timers
    are not modelled. *)
Inductive pass : Type :=
| Full
| Delta.

(** Modelled from the spec: [BaseSyncedType::GetModified] reports the
    dirty flag. *)
Definition GetModified (f : BaseSyncedType) : bool := m_modified f.

(** Modelled from the spec: [BaseSyncedType::SetModified] sets the dirty
    flag (the owner's notification is [SyncedObject.NotifyChanged]). *)
Definition SetModified (modified : bool) (f : BaseSyncedType) : BaseSyncedType :=
  with_modified modified f.

Definition GetSynchronizationType (f : BaseSyncedType) : SynchronizationType :=
  U_of f.

Definition GetValue (f : BaseSyncedType) : Z := m_value f.

(** Modelled from the spec: the constructor [SyncedType( owner, value )]:
    the back-reference is set, the flag keeps its initialiser. *)
Definition ctor (owner : addr) (T : value_type) (U : SynchronizationType)
    (v : Z) : BaseSyncedType :=
  {| m_owner := Some owner;
     m_modified := m_modified (BaseSyncedType_init T U v);
     T_of := T; U_of := U; m_value := v |}.

(** The bytes of a value of type [T] on the wire. *)
Definition encode (T : value_type) (v : Z) : list byte :=
  Message.split (size_of T) (v mod 2 ^ bits_of T).

Definition decode (T : value_type) (bs : list byte) : Z :=
  let u := Message.combine bs in
  if is_signed T && (2 ^ (bits_of T - 1) <=? u) then u - 2 ^ bits_of T else u.

(** Modelled from the spec: whether a pass writes (and reads) the field.
    "Full always writes every field regardless of policy or dirty flag;
    Delta writes Dynamic fields only if dirty and writes nothing for
    Static".  Stream fields belong to the StreamDue pass: Delta writes
    nothing for them. *)
Definition due (sync_type : pass) (f : BaseSyncedType) : bool :=
  match sync_type with
  | Full => true
  | Delta =>
      match U_of f with
      | Dynamic => m_modified f
      | Static | Stream => false
      end
  end.

(** Modelled from the spec: [SyncedType::Serialize].  A Delta pass clears
    the flag after writing. *)
Definition Serialize (sync_type : pass) (f : BaseSyncedType)
    (message : Message.t) : BaseSyncedType * Message.t :=
  if due sync_type f then
    let message' := Message.write (encode (T_of f) (m_value f)) message in
    match sync_type with
    | Full => (f, message')
    | Delta => (SetModified false f, message')
    end
  else (f, message).

(** Modelled from the spec: [SyncedType::Deserialize] "reads a value using
    the same pass rules" and consumes the bytes a matching [Serialize] has
    produced.  Applying an incoming value does not mark the field dirty:
    [m_modified] is left as it is. *)
Definition Deserialize (sync_type : pass) (f : BaseSyncedType)
    (message : Message.t) : option (BaseSyncedType * Message.t) :=
  if due sync_type f then
    match Message.read (size_of (T_of f)) message with
    | Some (bs, message') => Some (with_value (decode (T_of f) bs) f, message')
    | None => None
    end
  else Some (f, message).

(** Modelled from the spec: [SyncedType::SetValue] "overwrites the value,
    and if the new value differs from - or policy does not require
    comparison against - the old one, marks the field dirty".  Which
    policies compare is left open by the spec: [compares] decides. *)
Definition SetValue (compares : SynchronizationType → bool) (value : Z)
    (f : BaseSyncedType) : BaseSyncedType :=
  if compares (U_of f) && (value =? m_value f)
  then with_value value f
  else SetModified true (with_value value f).

End SyncedType.

(** ** Synchronizer *)

Module Synchronizer.

(** Modelled from the spec: the Synchronizer's view of a tracked object,
    "Pending (added, snapshot not yet sent/received)" or "Live". *)
Inductive track_state : Type :=
| Pending
| Live.

(** Modelled from the spec: one row of the "mapping from Synchronized
    Object identity to object reference", with its schedule state. *)
Record tracked : Type := mkTracked {
  t_ref : addr;
  t_state : track_state
}.

(** Modelled from the spec: a Synchronizer ([Synchronizer.hpp] is absent):
    the table keyed by identifier, the objects marked as having pending
    work, and the destruction notices scheduled for the peer. *)
Record t : Type := mkSynchronizer {
  m_destroyed : bool;
  m_objects : gmap Z tracked;
  m_updated : gset Z;
  m_notices : list Z
}.

Definition IsDestroyed (sy : t) : bool := m_destroyed sy.

(** Modelled from the spec: "addObject(object): assigns/accepts the
    object's identifier, schedules a Full snapshot to be sent at the next
    tick, returns a failure if the identifier already exists". *)
Definition AddObject (object : addr) (id : Z) (sy : t) : bool * t :=
  match m_objects sy !! id with
  | Some _ => (false, sy)
  | None =>
      (true,
       {| m_destroyed := m_destroyed sy;
          m_objects := <[id := mkTracked object Pending]> (m_objects sy);
          m_updated := m_updated sy;
          m_notices := m_notices sy |})
  end.

(** Modelled from the spec: "removeObject(object): schedules a destruction
    notice to the peer and purges all local scheduling state for that
    identifier". *)
Definition RemoveObject (object : addr) (id : Z) (sy : t) : t :=
  {| m_destroyed := m_destroyed sy;
     m_objects := delete id (m_objects sy);
     m_updated := m_updated sy ∖ {[id]};
     m_notices := m_notices sy ++ [id] |}.

Definition repoint (from to : addr) (e : tracked) : tracked :=
  if decide (t_ref e = from) then mkTracked to (t_state e) else e.

(** Modelled from the spec: "moveObject(from, to): repoints internal state
    keyed by identity from the old storage location to the new one without
    altering schedule state or emitting wire traffic". *)
Definition MoveObject (from to : addr) (sy : t) : t :=
  {| m_destroyed := m_destroyed sy;
     m_objects := repoint from to <$> m_objects sy;
     m_updated := m_updated sy;
     m_notices := m_notices sy |}.

(** Modelled from the spec: "updateObject(object): marks the object as
    having at least one dirty field; idempotent". *)
Definition UpdateObject (object : addr) (id : Z) (sy : t) : t :=
  {| m_destroyed := m_destroyed sy;
     m_objects := m_objects sy;
     m_updated := m_updated sy ∪ {[id]};
     m_notices := m_notices sy |}.

(** What the Synchronizer has scheduled: everything but the storage
    locations. *)
Definition schedule (sy : t) : gmap Z track_state * gset Z * list Z :=
  (t_state <$> m_objects sy, m_updated sy, m_notices sy).

(** The synchronizer holds a reference to the storage location [a]. *)
Definition references (sy : t) (a : addr) : Prop :=
  ∃ id e, m_objects sy !! id = Some e ∧ t_ref e = a.

End Synchronizer.

(** ** SyncedObject.cpp *)

(** Modelled from the spec: [SyncedObject::id_type] ([SyncedObject.hpp] is
    absent): "a 64-bit counter", unsigned. *)
Definition id_bits : Z := 64.
Definition id_modulus : Z := 2 ^ id_bits.
Definition id_max : Z := id_modulus - 1.

Record SyncedObject : Type := mkSyncedObject {
  m_synchronizer : option sync_ptr;     (* SynchronizerBase* *)
  m_members : list BaseSyncedType;      (* std::vector<BaseSyncedType*> *)
  m_id : Z;                             (* id_type *)
  m_changed : bool
}.

Definition with_synchronizer (s : option sync_ptr) (o : SyncedObject) : SyncedObject :=
  {| m_synchronizer := s; m_members := m_members o; m_id := m_id o;
     m_changed := m_changed o |}.

Definition with_members (ms : list BaseSyncedType) (o : SyncedObject) : SyncedObject :=
  {| m_synchronizer := m_synchronizer o; m_members := ms; m_id := m_id o;
     m_changed := m_changed o |}.

Definition with_id (id : Z) (o : SyncedObject) : SyncedObject :=
  {| m_synchronizer := m_synchronizer o; m_members := m_members o; m_id := id;
     m_changed := m_changed o |}.

Definition with_changed (c : bool) (o : SyncedObject) : SyncedObject :=
  {| m_synchronizer := m_synchronizer o; m_members := m_members o;
     m_id := m_id o; m_changed := c |}.

(** A virtual call made on a [SynchronizerBase], with the storage locations
    it was handed. *)
Inductive call : Type :=
| CallAddObject (s : sync_ptr) (object : addr)
| CallRemoveObject (s : sync_ptr) (object : addr)
| CallMoveObject (s : sync_ptr) (from to : addr)
| CallUpdateObject (s : sync_ptr) (object : addr).

#[global] Instance call_eq_dec : EqDecision call.
Proof. solve_decision. Defined.

(** The process: the static counter, the live objects by storage location,
    the synchronizers, and the calls made on synchronizers so far. *)
Record world : Type := mkWorld {
  m_last_id : Z;                               (* static id_type m_last_id *)
  objects : gmap addr SyncedObject;
  synchronizers : gmap sync_ptr Synchronizer.t;
  calls : list call
}.

Definition with_last_id (id : Z) (w : world) : world :=
  {| m_last_id := id; objects := objects w;
     synchronizers := synchronizers w; calls := calls w |}.

Definition with_objects (os : gmap addr SyncedObject) (w : world) : world :=
  {| m_last_id := m_last_id w; objects := os;
     synchronizers := synchronizers w; calls := calls w |}.

Definition with_synchronizers (ss : gmap sync_ptr Synchronizer.t) (w : world) : world :=
  {| m_last_id := m_last_id w; objects := objects w;
     synchronizers := ss; calls := calls w |}.

Definition with_calls (cs : list call) (w : world) : world :=
  {| m_last_id := m_last_id w; objects := objects w;
     synchronizers := synchronizers w; calls := cs |}.

(** A method: it reads and updates the process, and has no result ([None])
    where the C++ dereferences storage that holds no object. *)
Definition method (A : Type) : Type := world → option (A * world).

Definition ret {A} (a : A) : method A := λ w, Some (a, w).

Definition bind {A B} (m : method A) (k : A → method B) : method B :=
  λ w, match m w with
       | Some (a, w') => k a w'
       | None => None
       end.

Notation "'let*' x ':=' m 'in' k" := (bind m (λ x, k))
  (at level 10, x name, m at level 100, k at level 200, only parsing).
Notation "m >> k" := (bind m (λ _, k))
  (at level 100, k at level 200, right associativity, only parsing).

Definition deref (a : addr) : method SyncedObject :=
  λ w, match objects w !! a with
       | Some o => Some (o, w)
       | None => None
       end.

Definition update (a : addr) (f : SyncedObject → SyncedObject) : method unit :=
  λ w, match objects w !! a with
       | Some o => Some (tt, with_objects (<[a := f o]> (objects w)) w)
       | None => None
       end.

(** Storage [a] starts holding the object [o]; it must be free. *)
Definition construct (a : addr) (o : SyncedObject) : method unit :=
  λ w, match objects w !! a with
       | Some _ => None
       | None => Some (tt, with_objects (<[a := o]> (objects w)) w)
       end.

Definition release (a : addr) : method unit :=
  λ w, match objects w !! a with
       | Some _ => Some (tt, with_objects (delete a (objects w)) w)
       | None => None
       end.

(** A call through [m_synchronizer]: it is recorded, and the synchronizer
    pointed to is updated by [f]. *)
Definition on_synchronizer (s : sync_ptr) (c : call)
    (f : Synchronizer.t → Synchronizer.t) : method unit :=
  λ w, match synchronizers w !! s with
       | Some sy =>
           Some (tt, with_calls (calls w ++ [c])
                       (with_synchronizers (<[s := f sy]> (synchronizers w)) w))
       | None => None
       end.

Module SyncedObject.

(** The synchronizer callbacks as the object invokes them: the object's
    identifier is read through the pointer that is handed over. *)
Definition AddObject (s : sync_ptr) (this : addr) : method unit :=
  let* o := deref this in
  on_synchronizer s (CallAddObject s this)
    (λ sy, snd (Synchronizer.AddObject this (m_id o) sy)).

Definition RemoveObject (s : sync_ptr) (this : addr) : method unit :=
  let* o := deref this in
  on_synchronizer s (CallRemoveObject s this)
    (Synchronizer.RemoveObject this (m_id o)).

Definition MoveObject (s : sync_ptr) (from to : addr) : method unit :=
  on_synchronizer s (CallMoveObject s from to)
    (Synchronizer.MoveObject from to).

Definition UpdateObject (s : sync_ptr) (this : addr) : method unit :=
  let* o := deref this in
  on_synchronizer s (CallUpdateObject s this)
    (Synchronizer.UpdateObject this (m_id o)).

Definition IsDestroyed (s : sync_ptr) : method bool :=
  λ w, match synchronizers w !! s with
       | Some sy => Some (Synchronizer.IsDestroyed sy, w)
       | None => None
       end.

(** [++] on the unsigned [id_type]. *)
Definition increment (id : Z) : Z := (id + 1) mod id_modulus.

(** [return ++m_last_id;] *)
Definition NewID : method Z :=
  λ w, let id := increment (m_last_id w) in
       Some (id, with_last_id id w).

(** What the in-class initialisers of [SyncedObject.hpp] (absent) give a
    new object: no synchronizer and no members yet.  The initial
    [m_changed] is an argument, and so is [m_id], which both constructors
    assign. *)
Definition init (id : Z) (changed : bool) : SyncedObject :=
  {| m_synchronizer := None; m_members := []; m_id := id;
     m_changed := changed |}.

(** [SyncedObject::SyncedObject()] *)
Definition ctor (changed : bool) (this : addr) : method unit :=
  let* id := NewID in
  construct this (init id changed).

(** [SyncedObject::SyncedObject( SyncedObject&& object )] *)
Definition move_ctor (changed : bool) (this object : addr) : method unit :=
  let* o := deref object in
  construct this (init (m_id o) changed) >>
  match m_synchronizer o with
  | Some s =>
      update this (with_synchronizer (Some s)) >>
      MoveObject s object this >>
      update object (with_synchronizer None)
  | None => ret tt
  end.

(** [SyncedObject& SyncedObject::operator=( SyncedObject&& object )] *)
Definition move_assign (this object : addr) : method unit :=
  let* o := deref object in
  update this (with_id (m_id o)) >>
  let* t := deref this in
  match m_synchronizer t with
  | Some s =>
      let* o := deref object in
      if decide (Some s = m_synchronizer o) then
        MoveObject s object this
      else
        RemoveObject s this >>
        let* o := deref object in
        update this (with_synchronizer (m_synchronizer o)) >>
        let* t := deref this in
        match m_synchronizer t with
        | Some s' => AddObject s' this
        | None => ret tt
        end
  | None => ret tt
  end.

(** [SyncedObject::~SyncedObject()]; the storage is free afterwards. *)
Definition dtor (this : addr) : method unit :=
  let* t := deref this in
  match m_synchronizer t with
  | Some s => RemoveObject s this
  | None => ret tt
  end >>
  release this.

Definition GetID (this : addr) : method Z :=
  let* t := deref this in ret (m_id t).

Definition SetID (this : addr) (id : Z) : method unit :=
  update this (with_id id).


(** [SyncedObject::NotifyChanged()] *)
Definition NotifyChanged (this : addr) : method unit :=
  update this (with_changed true) >>
  let* t := deref this in
  match m_synchronizer t with
  | Some s => UpdateObject s this
  | None => ret tt
  end.

(** [SyncedObject::SetSynchronizer( SynchronizerBase* synchronizer )] *)
Definition SetSynchronizer (this : addr) (synchronizer : option sync_ptr)
    : method unit :=
  let* t := deref this in
  match m_synchronizer t with
  | Some s =>
      let* destroyed := IsDestroyed s in
      if negb destroyed then RemoveObject s this else ret tt
  | None => ret tt
  end >>
  update this (with_synchronizer synchronizer) >>
  let* t := deref this in
  match m_synchronizer t with
  | Some s => AddObject s this
  | None => ret tt
  end.

(** The loop of [SyncedObject::Serialize]: every member, in registration
    order, writes to the one message.  [sync_type] is the pass each member's
    [Serialize( Message&, SynchronizationType )] of [SyncedType.hpp] is
    handed. *)
Fixpoint Serialize_members (sync_type : SyncedType.pass)
    (members : list BaseSyncedType) (message : Message.t)
    : list BaseSyncedType * Message.t :=
  match members with
  | [] => ([], message)
  | m :: ms =>
      let '(m', message') := SyncedType.Serialize sync_type m message in
      let '(ms', message'') := Serialize_members sync_type ms message' in
      (m' :: ms', message'')
  end.

(** [Message SyncedObject::Serialize()]: a fresh message, filled by the
    members. *)
Definition Serialize (sync_type : SyncedType.pass) (o : SyncedObject)
    : SyncedObject * Message.t :=
  let '(ms, message) := Serialize_members sync_type (m_members o) [] in
  (with_members ms o, message).

(** The loop of [SyncedObject::Deserialize]: every member, in registration
    order, reads from the one message. *)
Fixpoint Deserialize_members (sync_type : SyncedType.pass)
    (members : list BaseSyncedType) (message : Message.t)
    : option (list BaseSyncedType * Message.t) :=
  match members with
  | [] => Some ([], message)
  | m :: ms =>
      match SyncedType.Deserialize sync_type m message with
      | Some (m', message') =>
          match Deserialize_members sync_type ms message' with
          | Some (ms', message'') => Some (m' :: ms', message'')
          | None => None
          end
      | None => None
      end
  end.

(** [void SyncedObject::Deserialize( Message& message )] *)
Definition Deserialize (sync_type : SyncedType.pass) (message : Message.t)
    (o : SyncedObject) : option (SyncedObject * Message.t) :=
  match Deserialize_members sync_type (m_members o) message with
  | Some (ms, message') => Some (with_members ms o, message')
  | None => None
  end.

(** Modelled from the spec: the Delta message of an object,
    [Delta{object_id, field_presence_bitmask, present_field_bytes}]: one
    due/not-due indicator per member slot, then the bytes of the members
    that are due. *)
Definition deltaSerialize (o : SyncedObject)
    : SyncedObject * (list bool * Message.t) :=
  let mask := map (SyncedType.due SyncedType.Delta) (m_members o) in
  let '(o', payload) := Serialize SyncedType.Delta o in
  (o', (mask, payload)).

(** Field mutations, by member slot: [(i, v)] is [SetValue( v )] on the
    [i]-th member. *)
Definition mutate (compares : SynchronizationType → bool)
    (mutation : nat * Z) (o : SyncedObject) : SyncedObject :=
  with_members
    (alter (SyncedType.SetValue compares mutation.2) mutation.1 (m_members o)) o.

Definition mutate_all (compares : SynchronizationType → bool)
    (mutations : list (nat * Z)) (o : SyncedObject) : SyncedObject :=
  foldl (λ o mutation, mutate compares mutation o) o mutations.

End SyncedObject.

(** The bytes a pass writes for one field, and the field it leaves. *)
Definition written (sync_type : SyncedType.pass) (f : BaseSyncedType) : list byte :=
  (SyncedType.Serialize sync_type f []).2.

Definition after (sync_type : SyncedType.pass) (f : BaseSyncedType) : BaseSyncedType :=
  (SyncedType.Serialize sync_type f []).1.

(** ** Typing of field values *)

(** The member types of an object, in registration order: its schema. *)
Definition schema (o : SyncedObject) : list value_type := T_of <$> m_members o.

(** A field holds a value of its type [T], as the C++ type system enforces. *)
Definition well_typed (f : BaseSyncedType) : Prop := in_range (T_of f) (m_value f).

#[global] Instance well_typed_dec f : Decision (well_typed f).
Proof. unfold well_typed. apply _. Defined.

(** A mutation hands the member a value of the member's type. *)
Definition mutation_fits (types : list value_type) (mutation : nat * Z) : Prop :=
  match types !! mutation.1 with
  | Some T => in_range T mutation.2
  | None => True
  end.

#[global] Instance mutation_fits_dec types mutation :
  Decision (mutation_fits types mutation).
Proof. unfold mutation_fits. destruct (types !! mutation.1); apply _. Defined.

(** ** Runs of a process *)

(** The lifetime events of objects: a default construction in the storage
    [this], and a destruction. *)
Inductive event : Type :=
| Construct (this : addr)
| Destroy (this : addr).

(** A run of events; its result lists the identifiers the constructions were
    assigned, in order. *)
Fixpoint run (changed : bool) (events : list event) : method (list Z) :=
  match events with
  | [] => ret []
  | Construct this :: rest =>
      SyncedObject.ctor changed this >>
      let* id := SyncedObject.GetID this in
      let* ids := run changed rest in
      ret (id :: ids)
  | Destroy this :: rest =>
      SyncedObject.dtor this >>
      run changed rest
  end.

(** The events can happen: an object is constructed in storage that holds
    none, and the object destroyed is live.  [live] is the storage in use. *)
Fixpoint feasible (live : gset addr) (events : list event) : bool :=
  match events with
  | [] => true
  | Construct this :: rest =>
      bool_decide (this ∉ live) && feasible ({[this]} ∪ live) rest
  | Destroy this :: rest =>
      bool_decide (this ∈ live) && feasible (live ∖ {[this]}) rest
  end.

Definition constructions (events : list event) : list addr :=
  omap (λ e, match e with Construct this => Some this | Destroy _ => None end) events.

(** The value [NewID] returns at its [n]-th call, counted from the counter
    value [last]. *)
Definition nth_NewID (n : N) (last : Z) : Z := N.iter n SyncedObject.increment last.

(** Every live object's identifier has been handed out by the counter, and
    no two live objects share one. *)
Definition live_ids_allocated (w : world) : Prop :=
  ∀ a o, objects w !! a = Some o → m_id o <= m_last_id w.

Definition live_ids_distinct (w : world) : Prop :=
  ∀ a b oa ob, objects w !! a = Some oa → objects w !! b = Some ob →
               m_id oa = m_id ob → a = b.

(** [SyncedObject::id_type SyncedObject::m_last_id = SyncedObject::invalid_id;]
    the process as it starts, with no object and no synchronizer. *)
Definition start (invalid_id : Z) : world :=
  {| m_last_id := invalid_id; objects := ∅; synchronizers := ∅; calls := [] |}.

(** ** Attachment *)

(** The pointer [p] is null or points to a synchronizer of the process. *)
Definition valid_synchronizer (w : world) (p : option sync_ptr) : Prop :=
  match p with
  | Some s => is_Some (synchronizers w !! s)
  | None => True
  end.

#[global] Instance valid_synchronizer_dec w p : Decision (valid_synchronizer w p).
Proof. destruct p; simpl; apply _. Defined.

(** No live object holds a dangling synchronizer pointer. *)
Definition pointers_valid (w : world) : Prop :=
  ∀ a o, objects w !! a = Some o → valid_synchronizer w (m_synchronizer o).

(** The table is keyed by identity: a row that refers to the storage [a]
    is the row of the identifier [id]. *)
Definition keyed (sy : Synchronizer.t) (a : addr) (id : Z) : Prop :=
  ∀ id' e, Synchronizer.m_objects sy !! id' = Some e →
           Synchronizer.t_ref e = a → id' = id.

(** The calls of one [SetSynchronizer] as the specification words them: the
    removal from the current synchronizer "when one is set and not
    destroyed", then the addition to the new one "when non-null". *)
Definition removal (w : world) (this : addr) (current : option sync_ptr) : list call :=
  match current with
  | Some s =>
      match synchronizers w !! s with
      | Some sy => if Synchronizer.IsDestroyed sy then [] else [CallRemoveObject s this]
      | None => []
      end
  | None => []
  end.

Definition addition (this : addr) (synchronizer : option sync_ptr) : list call :=
  match synchronizer with
  | Some s => [CallAddObject s this]
  | None => []
  end.

(** One synchronizer at a time: a synchronizer that is not destroyed and
    holds a row for the storage of a live object is the one the object
    points to, and the row is that of the object's identifier. *)
Definition attachment_consistent (w : world) : Prop :=
  ∀ a o s sy id e,
    objects w !! a = Some o →
    synchronizers w !! s = Some sy →
    Synchronizer.IsDestroyed sy = false →
    Synchronizer.m_objects sy !! id = Some e →
    Synchronizer.t_ref e = a →
    m_synchronizer o = Some s ∧ id = m_id o.

(** A sequence of [SetSynchronizer] calls, each on some object. *)
Fixpoint SetSynchronizer_all (requests : list (addr * option sync_ptr)) : method unit :=
  match requests with
  | [] => ret tt
  | (this, synchronizer) :: rest =>
      SyncedObject.SetSynchronizer this synchronizer >>
      SetSynchronizer_all rest
  end.

(** The synchronizers after the removal and after the addition of one
    [SetSynchronizer]. *)
Definition detach_from (this : addr) (id : Z) (current : option sync_ptr)
    (ss : gmap sync_ptr Synchronizer.t) : gmap sync_ptr Synchronizer.t :=
  match current with
  | Some s =>
      match ss !! s with
      | Some sy =>
          if Synchronizer.IsDestroyed sy then ss
          else <[s := Synchronizer.RemoveObject this id sy]> ss
      | None => ss
      end
  | None => ss
  end.

Definition attach_to (this : addr) (id : Z) (synchronizer : option sync_ptr)
    (ss : gmap sync_ptr Synchronizer.t) : gmap sync_ptr Synchronizer.t :=
  match synchronizer with
  | Some s =>
      match ss !! s with
      | Some sy => <[s := (Synchronizer.AddObject this id sy).2]> ss
      | None => ss
      end
  | None => ss
  end.

(** ** Registration *)


(** ** Sample processes *)

Module Sample.

(** An object with a field of each policy. *)
Definition object : SyncedObject :=
  {| m_synchronizer := None;
     m_members :=
       [ mkSyncedType (Some 1%positive) true Int8 Static (-3);
         mkSyncedType (Some 1%positive) false Uint16 Dynamic 513;
         mkSyncedType (Some 1%positive) true Int64 Stream (-1) ];
     m_id := 1;
     m_changed := false |}.

Definition mirror : SyncedObject :=
  {| m_synchronizer := None;
     m_members :=
       [ SyncedType.ctor 5 Int8 Static 0;
         SyncedType.ctor 5 Uint16 Dynamic 0;
         SyncedType.ctor 5 Int64 Stream 0 ];
     m_id := 1;
     m_changed := true |}.

Definition mutations : list (nat * Z) := [ (0%nat, -128); (1%nat, 65535) ].

(** An object whose fields are all Dynamic, one of them clean. *)
Definition dynamic_object : SyncedObject :=
  {| m_synchronizer := None;
     m_members :=
       [ mkSyncedType (Some 1%positive) true Uint8 Dynamic 200;
         mkSyncedType (Some 1%positive) false Int32 Dynamic (-70000);
         mkSyncedType (Some 1%positive) false Uint16 Dynamic 9 ];
     m_id := 1;
     m_changed := false |}.

Definition never (_ : SynchronizationType) : bool := false.

Definition detached (id : Z) : SyncedObject :=
  {| m_synchronizer := None; m_members := []; m_id := id; m_changed := false |}.

Definition attached (s : sync_ptr) (id : Z) : SyncedObject :=
  {| m_synchronizer := Some s; m_members := []; m_id := id; m_changed := false |}.

Definition synchronizer (rows : gmap Z Synchronizer.tracked) (notices : list Z)
    : Synchronizer.t :=
  {| Synchronizer.m_destroyed := false;
     Synchronizer.m_objects := rows;
     Synchronizer.m_updated := ∅;
     Synchronizer.m_notices := notices |}.

(** Synchronizer 9 tracks the object 7, which lives in storage 2. *)
Definition one_attached : world :=
  {| m_last_id := 7;
     objects := {[ 2%positive := attached 9 7 ]};
     synchronizers :=
       {[ 9%positive :=
            synchronizer {[ 7 := Synchronizer.mkTracked 2 Synchronizer.Live ]} [] ]};
     calls := [] |}.

(** Besides, the object 3 lives in storage 1 and is not attached. *)
Definition target_detached : world :=
  {| m_last_id := 7;
     objects := {[ 1%positive := detached 3; 2%positive := attached 9 7 ]};
     synchronizers :=
       {[ 9%positive :=
            synchronizer {[ 7 := Synchronizer.mkTracked 2 Synchronizer.Live ]} [] ]};
     calls := [] |}.

(** Both objects are tracked by synchronizer 9. *)
Definition both_attached : world :=
  {| m_last_id := 7;
     objects := {[ 1%positive := attached 9 3; 2%positive := attached 9 7 ]};
     synchronizers :=
       {[ 9%positive :=
            synchronizer {[ 3 := Synchronizer.mkTracked 1 Synchronizer.Live;
                            7 := Synchronizer.mkTracked 2 Synchronizer.Live ]} [] ]};
     calls := [] |}.

(** Two synchronizers that track nothing, and one object. *)
Definition two_synchronizers : world :=
  {| m_last_id := 3;
     objects := {[ 1%positive := detached 3 ]};
     synchronizers :=
       {[ 9%positive := synchronizer ∅ []; 10%positive := synchronizer ∅ [] ]};
     calls := [] |}.

Definition after_first_attach : world :=
  {| m_last_id := 3;
     objects := {[ 1%positive := attached 9 3 ]};
     synchronizers :=
       {[ 9%positive :=
            synchronizer {[ 3 := Synchronizer.mkTracked 1 Synchronizer.Pending ]} [];
          10%positive := synchronizer ∅ [] ]};
     calls := [ CallAddObject 9 1 ] |}.

End Sample.

(** ** HTTP messages: the second part of [SyncedObject.cpp] *)

(** The two characters that end a line of an HTTP message. *)
Definition CRLF : string :=
  String (Ascii.ascii_of_nat 13) (String (Ascii.ascii_of_nat 10) EmptyString).

(** [HTTPMessage].  [HTTP.hpp] is absent: [m_header] is used as a standard
    map with unique keys ([find], [operator[]], range-for, [==]); the
    in-class initialisers of the two flags are not known. *)
Record HTTPMessage : Type := mkHTTPMessage {
  m_header : gmap string string;
  m_body : string;
  m_header_complete : bool;
  m_body_complete : bool
}.

(** The order in which a range-for visits the header: it is the
    container's, which the sources at hand do not fix. *)
Definition header_order : Type := gmap string string → list (string * string).

(** A range-for visits every element of the container once. *)
Definition visits_each_once (order : header_order) : Prop :=
  ∀ header, order header ≡ₚ map_to_list header.

Module HTTPMessage.

Definition GetHeaderValue (field_name : string) (m : HTTPMessage) : string :=
  match m_header m !! field_name with
  | Some value => value
  | None => EmptyString
  end.

Definition SetHeaderValue (field value : string) (m : HTTPMessage) : HTTPMessage :=
  {| m_header := <[field := value]> (m_header m); m_body := m_body m;
     m_header_complete := m_header_complete m;
     m_body_complete := m_body_complete m |}.

Definition GetBody (m : HTTPMessage) : string := m_body m.

Definition SetBody (body : string) (m : HTTPMessage) : HTTPMessage :=
  {| m_header := m_header m; m_body := body;
     m_header_complete := m_header_complete m;
     m_body_complete := m_body_complete m |}.

(** [m_body.reserve( size )] changes the capacity of the string only. *)
Definition ReserveBody (size : Z) (m : HTTPMessage) : HTTPMessage := m.

(** One turn of the loop of [ToString]:
    [str += h.first + ": " + h.second + "\r\n"]. *)
Definition add_header_line (str : string) (h : string * string) : string :=
  str +:+ (((h.1 +:+ ": ") +:+ h.2) +:+ CRLF).

Definition ToString (order : header_order) (m : HTTPMessage) : string :=
  let str := foldl add_header_line EmptyString (order (m_header m)) in
  let str := str +:+ CRLF in
  str +:+ m_body m.

Definition IsHeaderComplete (m : HTTPMessage) : bool := m_header_complete m.

Definition SetHeaderComplete (m : HTTPMessage) : HTTPMessage :=
  {| m_header := m_header m; m_body := m_body m;
     m_header_complete := true; m_body_complete := m_body_complete m |}.

Definition IsBodyComplete (m : HTTPMessage) : bool := m_body_complete m.

Definition SetBodyComplete (m : HTTPMessage) : HTTPMessage :=
  {| m_header := m_header m; m_body := m_body m;
     m_header_complete := m_header_complete m; m_body_complete := true |}.

(** [operator==( const HTTPMessage&, const HTTPMessage& )] *)
Definition eqb (left right : HTTPMessage) : bool :=
  bool_decide (m_header left = m_header right)
  && bool_decide (GetBody left = GetBody right).

End HTTPMessage.

(** [HTTPRequest] and [HTTPResponse] derive from [HTTPMessage]: the base is
    the [message] part. *)
Record HTTPRequest : Type := mkHTTPRequest {
  request_message : HTTPMessage;
  m_method : string;
  m_uri : string
}.

Record HTTPResponse : Type := mkHTTPResponse {
  response_message : HTTPMessage;
  m_http_version : string;
  m_status : string
}.

Module HTTPRequest.

(** [HTTPRequest::HTTPRequest()]: whatever the flags of the base start as,
    both are set; the strings and the header start empty. *)
Definition ctor : HTTPRequest :=
  {| request_message :=
       HTTPMessage.SetBodyComplete
         (HTTPMessage.SetHeaderComplete
            (mkHTTPMessage ∅ EmptyString false false));
     m_method := EmptyString;
     m_uri := EmptyString |}.

Definition GetMethod (r : HTTPRequest) : string := m_method r.

Definition SetMethod (method : string) (r : HTTPRequest) : HTTPRequest :=
  {| request_message := request_message r; m_method := method; m_uri := m_uri r |}.

Definition GetURI (r : HTTPRequest) : string := m_uri r.

Definition SetURI (uri : string) (r : HTTPRequest) : HTTPRequest :=
  {| request_message := request_message r; m_method := m_method r; m_uri := uri |}.

(** The member functions inherited from [HTTPMessage]. *)
Definition on_message (f : HTTPMessage → HTTPMessage) (r : HTTPRequest) : HTTPRequest :=
  {| request_message := f (request_message r); m_method := m_method r;
     m_uri := m_uri r |}.

Definition ToString (order : header_order) (r : HTTPRequest) : string :=
  (((m_method r +:+ " ") +:+ m_uri r) +:+ (" HTTP/1.1" +:+ CRLF))
  +:+ HTTPMessage.ToString order (request_message r).

(** [operator==( const HTTPRequest&, const HTTPRequest& )] *)
Definition eqb (left right : HTTPRequest) : bool :=
  bool_decide (GetMethod left = GetMethod right)
  && (bool_decide (GetURI left = GetURI right)
      && HTTPMessage.eqb (request_message left) (request_message right)).

End HTTPRequest.

Module HTTPResponse.

Definition GetHTTPVersion (r : HTTPResponse) : string := m_http_version r.

Definition SetHTTPVersion (version : string) (r : HTTPResponse) : HTTPResponse :=
  {| response_message := response_message r; m_http_version := version;
     m_status := m_status r |}.

Definition GetStatus (r : HTTPResponse) : string := m_status r.

Definition SetStatus (status : string) (r : HTTPResponse) : HTTPResponse :=
  {| response_message := response_message r;
     m_http_version := m_http_version r; m_status := status |}.

(** The member functions inherited from [HTTPMessage]. *)
Definition on_message (f : HTTPMessage → HTTPMessage) (r : HTTPResponse) : HTTPResponse :=
  {| response_message := f (response_message r);
     m_http_version := m_http_version r; m_status := m_status r |}.

Definition GetHeaderValue (field_name : string) (r : HTTPResponse) : string :=
  HTTPMessage.GetHeaderValue field_name (response_message r).

Definition GetBody (r : HTTPResponse) : string :=
  HTTPMessage.GetBody (response_message r).

Definition ToString (order : header_order) (r : HTTPResponse) : string :=
  (((m_http_version r +:+ " ") +:+ m_status r) +:+ CRLF)
  +:+ HTTPMessage.ToString order (response_message r).

Definition IsComplete (r : HTTPResponse) : bool :=
  HTTPMessage.IsHeaderComplete (response_message r)
  && HTTPMessage.IsBodyComplete (response_message r).

(** The loop of [GetHeaderFields]: [fields.emplace_back( f.first )]. *)
Definition GetHeaderFields (order : header_order) (r : HTTPResponse) : list string :=
  foldl (λ fields f, fields ++ [f.1]) [] (order (m_header (response_message r))).

(** [operator==( const HTTPResponse&, const HTTPResponse& )] *)
Definition eqb (left right : HTTPResponse) : bool :=
  bool_decide (GetHTTPVersion left = GetHTTPVersion right)
  && (bool_decide (GetStatus left = GetStatus right)
      && HTTPMessage.eqb (response_message left) (response_message right)).

End HTTPResponse.

(** The line [ToString] writes for one header, and the text a sequence of
    lines makes. *)
Definition header_line (h : string * string) : string :=
  ((h.1 +:+ ": ") +:+ h.2) +:+ CRLF.

Definition join (lines : list string) : string :=
  foldr String.append EmptyString lines.

(** ** Endpoint *)

(** [IpAddress.hpp] is absent: an address is a value compared with [==],
    here a number. *)
Definition IpAddress : Type := N.

Record Endpoint : Type := mkEndpoint {
  m_address : IpAddress;
  m_port : Z                       (* unsigned short *)
}.

#[global] Instance Endpoint_eq_dec : EqDecision Endpoint.
Proof. solve_decision. Defined.

Module Endpoint.

Definition GetAddress (e : Endpoint) : IpAddress := m_address e.

Definition SetAddress (address : IpAddress) (e : Endpoint) : Endpoint :=
  {| m_address := address; m_port := m_port e |}.

Definition GetPort (e : Endpoint) : Z := m_port e.

Definition SetPort (port : Z) (e : Endpoint) : Endpoint :=
  {| m_address := m_address e; m_port := port |}.

(** [operator==( const Endpoint&, const Endpoint& )] *)
Definition eqb (left right : Endpoint) : bool :=
  bool_decide (GetPort left = GetPort right)
  && bool_decide (GetAddress left = GetAddress right).

End Endpoint.

(** ** HTTPClient.cpp *)

(** A certificate behind a [TlsCertificate::Ptr]; the null pointer is
    [None]. *)
Definition certificate : Type := N.

(** What a pipeline does to its socket and to its parser: the calls on
    [m_socket] (and the creation of a new socket), and [http_parser_init]. *)
Inductive effect : Type :=
| SocketCreate (tls : bool)
| SocketConnect (endpoint : Endpoint)
| SocketSend (data : string)
| SocketShutdown
| SocketClearBuffers
| SocketReset
| SocketClose
| SocketSetPeerCommonName (name : string)
| SocketAddTrustedCertificate (c : option certificate)
| ParserInit.

Module HTTPClientPipeline.

(** [m_socket] and [m_parser] are external: [m_effects] records what has
    been done to them, oldest first. *)
Record t : Type := mkPipeline {
  m_effects : list effect;
  m_secure : bool;
  m_remote_endpoint : Endpoint;
  m_certificate : option certificate;
  m_pipeline : list (HTTPRequest * HTTPResponse);   (* std::deque<PipelineElement> *)
  m_current_request : HTTPRequest;
  m_last_header_field : string;
  m_header_field_complete : bool;
  m_last_activity : Z;             (* std::chrono::steady_clock::time_point *)
  m_timeout_value : Z              (* std::chrono::seconds *)
}.

Definition with_effects (es : list effect) (p : t) : t :=
  {| m_effects := es; m_secure := m_secure p;
     m_remote_endpoint := m_remote_endpoint p; m_certificate := m_certificate p;
     m_pipeline := m_pipeline p; m_current_request := m_current_request p;
     m_last_header_field := m_last_header_field p;
     m_header_field_complete := m_header_field_complete p;
     m_last_activity := m_last_activity p; m_timeout_value := m_timeout_value p |}.

Definition with_certificate (c : option certificate) (p : t) : t :=
  {| m_effects := m_effects p; m_secure := m_secure p;
     m_remote_endpoint := m_remote_endpoint p; m_certificate := c;
     m_pipeline := m_pipeline p; m_current_request := m_current_request p;
     m_last_header_field := m_last_header_field p;
     m_header_field_complete := m_header_field_complete p;
     m_last_activity := m_last_activity p; m_timeout_value := m_timeout_value p |}.

Definition with_pipeline (l : list (HTTPRequest * HTTPResponse)) (p : t) : t :=
  {| m_effects := m_effects p; m_secure := m_secure p;
     m_remote_endpoint := m_remote_endpoint p; m_certificate := m_certificate p;
     m_pipeline := l; m_current_request := m_current_request p;
     m_last_header_field := m_last_header_field p;
     m_header_field_complete := m_header_field_complete p;
     m_last_activity := m_last_activity p; m_timeout_value := m_timeout_value p |}.

Definition with_current_request (r : HTTPRequest) (p : t) : t :=
  {| m_effects := m_effects p; m_secure := m_secure p;
     m_remote_endpoint := m_remote_endpoint p; m_certificate := m_certificate p;
     m_pipeline := m_pipeline p; m_current_request := r;
     m_last_header_field := m_last_header_field p;
     m_header_field_complete := m_header_field_complete p;
     m_last_activity := m_last_activity p; m_timeout_value := m_timeout_value p |}.

Definition with_last_header_field (field : string) (p : t) : t :=
  {| m_effects := m_effects p; m_secure := m_secure p;
     m_remote_endpoint := m_remote_endpoint p; m_certificate := m_certificate p;
     m_pipeline := m_pipeline p; m_current_request := m_current_request p;
     m_last_header_field := field;
     m_header_field_complete := m_header_field_complete p;
     m_last_activity := m_last_activity p; m_timeout_value := m_timeout_value p |}.

Definition with_header_field_complete (complete : bool) (p : t) : t :=
  {| m_effects := m_effects p; m_secure := m_secure p;
     m_remote_endpoint := m_remote_endpoint p; m_certificate := m_certificate p;
     m_pipeline := m_pipeline p; m_current_request := m_current_request p;
     m_last_header_field := m_last_header_field p;
     m_header_field_complete := complete;
     m_last_activity := m_last_activity p; m_timeout_value := m_timeout_value p |}.

Definition with_last_activity (now : Z) (p : t) : t :=
  {| m_effects := m_effects p; m_secure := m_secure p;
     m_remote_endpoint := m_remote_endpoint p; m_certificate := m_certificate p;
     m_pipeline := m_pipeline p; m_current_request := m_current_request p;
     m_last_header_field := m_last_header_field p;
     m_header_field_complete := m_header_field_complete p;
     m_last_activity := now; m_timeout_value := m_timeout_value p |}.

Definition perform (e : effect) (p : t) : t := with_effects (m_effects p ++ [e]) p.

(** The constructor; [now] is the clock as the initialiser of
    [m_last_activity] reads it. *)
Definition ctor (endpoint : Endpoint) (secure : bool) (timeout now : Z) : t :=
  let p :=
    {| m_effects := []; m_secure := secure; m_remote_endpoint := endpoint;
       m_certificate := None; m_pipeline := [];
       m_current_request := HTTPRequest.ctor;
       m_last_header_field := EmptyString; m_header_field_complete := false;
       m_last_activity := now; m_timeout_value := timeout |} in
  let p :=
    if negb secure
    then perform (SocketConnect endpoint) (perform (SocketCreate false) p)
    else perform (SocketCreate true) p in
  perform ParserInit p.

(** [LoadCertificate]; the socket exists from the constructor on. *)
Definition LoadCertificate (c : option certificate) (common_name : string)
    (p : t) : t :=
  if negb (m_secure p) then p
  else
    let p := with_certificate c p in
    let p :=
      if negb (bool_decide (common_name = EmptyString))
      then perform (SocketSetPeerCommonName common_name) p
      else p in
    let p := perform (SocketAddTrustedCertificate c) p in
    perform (SocketConnect (m_remote_endpoint p)) p.

(** [SendRequest]; [blank] is [HTTPResponse{}] and [now] the clock. *)
Definition SendRequest (order : header_order) (blank : HTTPResponse)
    (request : HTTPRequest) (now : Z) (p : t) : t :=
  let p :=
    match m_pipeline p with
    | [] => with_current_request request p
    | _ :: _ => p
    end in
  let request_string := HTTPRequest.ToString order request in
  let p := perform (SocketSend request_string) p in
  let p := with_last_activity now p in
  with_pipeline (m_pipeline p ++ [(request, blank)]) p.

(** The search loop shared by [GetResponse] and the parser callbacks: the
    first element whose request equals [request]. *)
Definition find (request : HTTPRequest) (l : list (HTTPRequest * HTTPResponse))
    : option (nat * (HTTPRequest * HTTPResponse)) :=
  list_find (λ e, HTTPRequest.eqb e.1 request = true) l.

Definition GetResponse (blank : HTTPResponse) (request : HTTPRequest) (p : t)
    : HTTPResponse * t :=
  match find request (m_pipeline p) with
  | None => (blank, p)
  | Some (i, e) =>
      if negb (HTTPResponse.IsComplete e.2) then (e.2, p)
      else (e.2, with_pipeline (delete i (m_pipeline p)) p)
  end.

Definition HasRequests (p : t) : bool :=
  negb (bool_decide (m_pipeline p = [])).

(** The response of the element at [i] is replaced by [f] of it. *)
Definition on_response (i : nat) (f : HTTPResponse → HTTPResponse) (p : t) : t :=
  with_pipeline (alter (λ e, (e.1, f e.2)) i (m_pipeline p)) p.

(** One turn of the loop of [Reconnect]; the state of the loop is the flag
    [current_set] and the pipeline object. *)
Definition resend (order : header_order) (st : bool * t)
    (e : HTTPRequest * HTTPResponse) : bool * t :=
  if negb (HTTPResponse.IsComplete e.2) then
    let st :=
      if negb st.1 then (true, with_current_request e.1 st.2) else st in
    (st.1, perform (SocketSend (HTTPRequest.ToString order e.1)) st.2)
  else st.

(** [Reconnect].  The loop that waits for the shutdown reads the socket and
    the clock and changes neither. *)
Definition Reconnect (order : header_order) (p : t) : t :=
  let p := perform SocketShutdown p in
  let p := perform SocketClearBuffers p in
  let p := perform SocketReset p in
  let p := perform SocketClose p in
  let p :=
    if negb (m_secure p) then perform (SocketCreate false) p
    else perform (SocketAddTrustedCertificate (m_certificate p))
            (perform (SocketCreate true) p) in
  let p := perform (SocketConnect (m_remote_endpoint p)) p in
  let p := perform ParserInit p in
  (foldl (resend order) (false, p) (m_pipeline p)).2.

(** The parser callbacks: the result is the [int] returned and the pipeline
    object behind [parser->data]. *)
Definition OnMessageBegin (p : t) : Z * t := (0, p).

Definition OnUrl (data : string) (p : t) : Z * t := (0, p).

Definition OnStatus (data : string) (p : t) : Z * t :=
  match find (m_current_request p) (m_pipeline p) with
  | None => (1, p)
  | Some (i, _) =>
      (0, on_response i
            (λ response,
               HTTPResponse.SetStatus (HTTPResponse.GetStatus response +:+ data)
                 response) p)
  end.

Definition OnHeaderField (data : string) (p : t) : Z * t :=
  let p :=
    if m_header_field_complete p
    then with_header_field_complete false (with_last_header_field EmptyString p)
    else p in
  (0, with_last_header_field (m_last_header_field p +:+ data) p).

Definition OnHeaderValue (data : string) (p : t) : Z * t :=
  let p := with_header_field_complete true p in
  match find (m_current_request p) (m_pipeline p) with
  | None => (1, p)
  | Some (i, _) =>
      (0, on_response i
            (λ response,
               HTTPResponse.on_message
                 (HTTPMessage.SetHeaderValue (m_last_header_field p)
                    (HTTPResponse.GetHeaderValue (m_last_header_field p) response
                     +:+ data))
                 response) p)
  end.

(** [OnHeadersComplete].  [std::stoi] and [std::string::reserve] are library
    calls: whether
    [ReserveBody( static_cast<std::size_t>( std::stoi( content_length ) ) )]
    throws for a header value is [throws]; the result is [None] then.
    Where it does not throw it changes the capacity of the body only. *)
Definition OnHeadersComplete (throws : string → bool) (p : t) : option (Z * t) :=
  match find (m_current_request p) (m_pipeline p) with
  | None => Some (1, p)
  | Some (i, e) =>
      let p :=
        on_response i (HTTPResponse.on_message HTTPMessage.SetHeaderComplete) p in
      let content_length :=
        HTTPResponse.GetHeaderValue "Content-Length"
          (HTTPResponse.on_message HTTPMessage.SetHeaderComplete e.2) in
      if negb (bool_decide (content_length = EmptyString)) then
        if throws content_length then None else Some (0, p)
      else Some (0, p)
  end.

Definition OnBody (data : string) (p : t) : Z * t :=
  match find (m_current_request p) (m_pipeline p) with
  | None => (1, p)
  | Some (i, _) =>
      (0, on_response i
            (λ response,
               let body := HTTPResponse.GetBody response in
               let body := body +:+ data in
               HTTPResponse.on_message (HTTPMessage.SetBody body) response) p)
  end.

Definition OnMessageComplete (order : header_order) (p : t) : Z * t :=
  match find (m_current_request p) (m_pipeline p) with
  | None => (1, p)
  | Some (i, e) =>
      let p :=
        on_response i (HTTPResponse.on_message HTTPMessage.SetBodyComplete) p in
      let p :=
        if bool_decide
             (HTTPResponse.GetHeaderValue "Connection"
                (HTTPResponse.on_message HTTPMessage.SetBodyComplete e.2)
              = "close")
        then Reconnect order p
        else p in
      match m_pipeline p !! S i with
      | None => (0, with_current_request HTTPRequest.ctor p)
      | Some next => (0, with_current_request next.1 p)
      end
  end.

End HTTPClientPipeline.

Module HTTPClient.

(** [HTTPClient]: the pipelines with the address and the port they were
    created for, the certificates by address, and the timeout handed to new
    pipelines. *)
Record t : Type := mkClient {
  m_pipelines : list (HTTPClientPipeline.t * string * Z);
  m_certificates : gmap string (option certificate * string);
  m_timeout_value : Z
}.

Definition with_pipelines (l : list (HTTPClientPipeline.t * string * Z)) (c : t) : t :=
  {| m_pipelines := l; m_certificates := m_certificates c;
     m_timeout_value := m_timeout_value c |}.

(** The [std::find_if] of [SendRequest] and [GetResponse]: the first pipeline
    of that address and port. *)
Definition find (address : string) (port : Z)
    (l : list (HTTPClientPipeline.t * string * Z))
    : option (nat * (HTTPClientPipeline.t * string * Z)) :=
  list_find (λ x, x.1.2 = address ∧ x.2 = port) l.

(** The [std::find_if] of [LoadCertificate]: the first pipeline of that
    address, whatever its port. *)
Definition find_address (address : string)
    (l : list (HTTPClientPipeline.t * string * Z))
    : option (nat * (HTTPClientPipeline.t * string * Z)) :=
  list_find (λ x, x.1.2 = address) l.

Definition on_pipeline (i : nat) (f : HTTPClientPipeline.t → HTTPClientPipeline.t)
    (c : t) : t :=
  with_pipelines (alter (λ x, (f x.1.1, x.1.2, x.2)) i (m_pipelines c)) c.

(** [SendRequest].  [Resolve] is [IpAddress::Resolve]; [created] and [now]
    are the clock as the constructor of a new pipeline and as its
    [SendRequest] read it. *)
Definition SendRequest (Resolve : string → list IpAddress)
    (order : header_order) (blank : HTTPResponse)
    (request : HTTPRequest) (address : string) (port : Z) (secure : bool)
    (created now : Z) (c : t) : t :=
  match Resolve address with
  | [] => c
  | front :: _ =>
      let endpoint := mkEndpoint front port in
      let '(i, c) :=
        match find address port (m_pipelines c) with
        | Some (i, _) => (i, c)
        | None =>
            let pipeline :=
              HTTPClientPipeline.ctor endpoint secure (m_timeout_value c) created in
            let pipeline :=
              match m_certificates c !! address with
              | Some (certificate, common_name) =>
                  HTTPClientPipeline.LoadCertificate certificate common_name pipeline
              | None => pipeline
              end in
            (length (m_pipelines c),
             with_pipelines (m_pipelines c ++ [(pipeline, address, port)]) c)
        end in
      on_pipeline i (HTTPClientPipeline.SendRequest order blank request now) c
  end.

Definition GetResponse (blank : HTTPResponse) (request : HTTPRequest)
    (address : string) (port : Z) (c : t) : HTTPResponse * t :=
  match find address port (m_pipelines c) with
  | None => (blank, c)
  | Some (i, x) =>
      let '(response, pipeline) :=
        HTTPClientPipeline.GetResponse blank request x.1.1 in
      (response, on_pipeline i (λ _, pipeline) c)
  end.

Definition LoadCertificate (address : string) (certificate : option certificate)
    (common_name : string) (c : t) : t :=
  let c :=
    {| m_pipelines := m_pipelines c;
       m_certificates := <[address := (certificate, common_name)]> (m_certificates c);
       m_timeout_value := m_timeout_value c |} in
  match find_address address (m_pipelines c) with
  | None => c
  | Some (i, _) =>
      on_pipeline i (HTTPClientPipeline.LoadCertificate certificate common_name) c
  end.

Definition SetTimeoutValue (timeout : Z) (c : t) : t :=
  {| m_pipelines := m_pipelines c; m_certificates := m_certificates c;
     m_timeout_value := timeout |}.

End HTTPClient.

(** ** Sequences of calls *)

(** The member functions of [HTTPResponse] that change it. *)
Inductive setter : Type :=
| DoSetHeaderValue (field value : string)
| DoSetBody (body : string)
| DoReserveBody (size : Z)
| DoSetHeaderComplete
| DoSetBodyComplete
| DoSetHTTPVersion (version : string)
| DoSetStatus (status : string).

Definition apply_setter (r : HTTPResponse) (s : setter) : HTTPResponse :=
  match s with
  | DoSetHeaderValue field value =>
      HTTPResponse.on_message (HTTPMessage.SetHeaderValue field value) r
  | DoSetBody body => HTTPResponse.on_message (HTTPMessage.SetBody body) r
  | DoReserveBody size => HTTPResponse.on_message (HTTPMessage.ReserveBody size) r
  | DoSetHeaderComplete => HTTPResponse.on_message HTTPMessage.SetHeaderComplete r
  | DoSetBodyComplete => HTTPResponse.on_message HTTPMessage.SetBodyComplete r
  | DoSetHTTPVersion version => HTTPResponse.SetHTTPVersion version r
  | DoSetStatus status => HTTPResponse.SetStatus status r
  end.

(** What the parser reports, in the order it reports it. *)
Inductive parser_event : Type :=
| Status (data : string)
| HeaderField (data : string)
| HeaderValue (data : string)
| HeadersComplete
| Body (data : string)
| MessageComplete.

(** The callback of one event. *)
Definition deliver (order : header_order) (throws : string → bool)
    (e : parser_event) (p : HTTPClientPipeline.t)
    : option (Z * HTTPClientPipeline.t) :=
  match e with
  | Status data => Some (HTTPClientPipeline.OnStatus data p)
  | HeaderField data => Some (HTTPClientPipeline.OnHeaderField data p)
  | HeaderValue data => Some (HTTPClientPipeline.OnHeaderValue data p)
  | HeadersComplete => HTTPClientPipeline.OnHeadersComplete throws p
  | Body data => Some (HTTPClientPipeline.OnBody data p)
  | MessageComplete => Some (HTTPClientPipeline.OnMessageComplete order p)
  end.

(** The callbacks of a sequence of events, as long as each returns 0. *)
Fixpoint deliver_all (order : header_order) (throws : string → bool)
    (events : list parser_event) (p : HTTPClientPipeline.t)
    : option HTTPClientPipeline.t :=
  match events with
  | [] => Some p
  | e :: rest =>
      match deliver order throws e p with
      | Some (code, p') =>
          if bool_decide (code = 0) then deliver_all order throws rest p'
          else None
      | None => None
      end
  end.

(** No two elements of the pipeline hold requests that [operator==] takes
    for equal. *)
Definition distinct_requests (l : list (HTTPRequest * HTTPResponse)) : Prop :=
  ∀ i j a b, l !! i = Some a → l !! j = Some b →
             HTTPRequest.eqb a.1 b.1 = true → i = j.

(** The requests of a sequence of [SendRequest] calls, the clock advancing
    as given. *)
Definition SendRequest_all (order : header_order) (blank : HTTPResponse)
    (requests : list (HTTPRequest * Z)) (p : HTTPClientPipeline.t)
    : HTTPClientPipeline.t :=
  foldl (λ p x, HTTPClientPipeline.SendRequest order blank x.1 x.2 p) p requests.

(** What the parser reports for one response whose status, header fields,
    header values and body each arrive in one piece. *)
Definition response_events (status : string) (headers : list (string * string))
    (body : string) : list parser_event :=
  Status status
  :: flat_map (λ h, [HeaderField h.1; HeaderValue h.2]) headers
  ++ [HeadersComplete; Body body; MessageComplete].

(** The values that [headers] gives for the field [field], in order. *)
Definition values_of (field : string) (headers : list (string * string))
    : list string :=
  (filter (λ h, h.1 = field) headers).*2.

(** What [OnHeaderField] puts in front of the data of a new field name:
    nothing after a header value, and otherwise what [m_last_header_field]
    holds. *)
Definition field_prefix (p : HTTPClientPipeline.t) : string :=
  if HTTPClientPipeline.m_header_field_complete p then EmptyString
  else HTTPClientPipeline.m_last_header_field p.

(** The headers under the names [OnHeaderField] builds for them in the
    pipeline [p]: the first name comes after the prefix. *)
Definition as_named (p : HTTPClientPipeline.t) (headers : list (string * string))
    : list (string * string) :=
  match headers with
  | [] => []
  | h :: rest => (field_prefix p +:+ h.1, h.2) :: rest
  end.

(** The statement of [OnHeaderValue] on the response found. *)
Definition add_header (r : HTTPResponse) (h : string * string) : HTTPResponse :=
  HTTPResponse.on_message
    (HTTPMessage.SetHeaderValue h.1 (HTTPResponse.GetHeaderValue h.1 r +:+ h.2)) r.

(** The calls a user makes on an [HTTPClient]; the clock readings of
    [SendRequest] come with the call. *)
Inductive client_call : Type :=
| DoSendRequest (request : HTTPRequest) (address : string) (port : Z)
    (secure : bool) (created now : Z)
| DoGetResponse (request : HTTPRequest) (address : string) (port : Z)
| DoLoadCertificate (address : string) (c : option certificate)
    (common_name : string)
| DoSetTimeoutValue (timeout : Z).

Definition apply_call (Resolve : string → list IpAddress) (order : header_order)
    (blank : HTTPResponse) (c : HTTPClient.t) (call : client_call) : HTTPClient.t :=
  match call with
  | DoSendRequest request address port secure created now =>
      HTTPClient.SendRequest Resolve order blank request address port secure
        created now c
  | DoGetResponse request address port =>
      (HTTPClient.GetResponse blank request address port c).2
  | DoLoadCertificate address certificate common_name =>
      HTTPClient.LoadCertificate address certificate common_name c
  | DoSetTimeoutValue timeout => HTTPClient.SetTimeoutValue timeout c
  end.

(** The address and port of every pipeline of a client, in order. *)
Definition hosts (c : HTTPClient.t) : list (string * Z) :=
  (λ x, (x.1.2, x.2)) <$> HTTPClient.m_pipelines c.

(** The shape shared by [OnStatus] and [OnBody]: the response of the element
    found for the current request is replaced by [f] of it, or 1 is
    returned. *)
Definition on_current (f : HTTPResponse → HTTPResponse)
    (p : HTTPClientPipeline.t) : Z * HTTPClientPipeline.t :=
  match HTTPClientPipeline.find (HTTPClientPipeline.m_current_request p)
          (HTTPClientPipeline.m_pipeline p) with
  | None => (1, p)
  | Some (i, _) => (0, HTTPClientPipeline.on_response i f p)
  end.

(** The pipeline holds the one request, and it is the current one. *)
Definition single (request : HTTPRequest) (q : HTTPClientPipeline.t)
    (r : HTTPResponse) : Prop :=
  HTTPClientPipeline.m_pipeline q = [(request, r)] ∧
  HTTPClientPipeline.m_current_request q = request.

(** The elements of the pipeline whose response is not complete yet. *)
Definition pending (l : list (HTTPRequest * HTTPResponse))
    : list (HTTPRequest * HTTPResponse) :=
  filter (λ e, HTTPResponse.IsComplete e.2 = false) l.

(** ** Sample exchanges *)

Module Exchange.

(** The header is visited as the map lists it. *)
Definition order : header_order := map_to_list.

(** A response with nothing in it and nothing complete. *)
Definition blank : HTTPResponse :=
  {| response_message := mkHTTPMessage ∅ EmptyString false false;
     m_http_version := EmptyString; m_status := EmptyString |}.

Definition get (uri : string) : HTTPRequest :=
  HTTPRequest.SetURI uri (HTTPRequest.SetMethod "GET" HTTPRequest.ctor).

Definition index : HTTPRequest := get "/".

Definition about : HTTPRequest := get "/about".

(** The request for [/] as a user builds it who never touches the flags. *)
Definition index_unflagged : HTTPRequest :=
  {| request_message := mkHTTPMessage ∅ EmptyString false false;
     m_method := "GET"; m_uri := "/" |}.

(** The header visited the other way round. *)
Definition reversed : header_order := λ header, reverse (map_to_list header).

(** A request with two header fields set. *)
Definition to_localhost (r : HTTPRequest) : HTTPRequest :=
  HTTPRequest.on_message
    (λ m, HTTPMessage.SetHeaderValue "Host" "localhost"
            (HTTPMessage.SetHeaderValue "Accept" "*/*" m)) r.

Definition page : HTTPResponse :=
  HTTPResponse.on_message (HTTPMessage.SetHeaderValue "Content-Type" "text/html")
    (HTTPResponse.on_message (HTTPMessage.SetHeaderValue "Content-Length" "2")
       blank).

Definition never_throws (_ : string) : bool := false.

Definition localhost : IpAddress := 2130706433%N.

Definition Resolve (address : string) : list IpAddress :=
  if decide (address = "localhost") then [localhost] else [].

(** A plain pipeline, as constructed. *)
Definition fresh : HTTPClientPipeline.t :=
  HTTPClientPipeline.ctor (mkEndpoint localhost 80) false 10 0.

(** A plain pipeline that was handed the beginning of a field name and
    nothing after it. *)
Definition interrupted : HTTPClientPipeline.t :=
  (HTTPClientPipeline.OnHeaderField "X-" fresh).2.

Definition cookies : list (string * string) :=
  [("Set-Cookie", "a=1"); ("Content-Length", "2"); ("Set-Cookie", "b=2");
   ("Set-Cookie", "c=3")].

(** Two requests are under way, and the same request twice. *)
Definition two : HTTPClientPipeline.t :=
  SendRequest_all order blank [(index, 1); (about, 2)] fresh.

Definition twice : HTTPClientPipeline.t :=
  SendRequest_all order blank [(index, 1); (index, 2)] fresh.

Definition ok : list parser_event :=
  response_events "200 OK" [("Content-Length", "2")] "ok".


(** A client with no pipeline, and one that has sent a request. *)
Definition client : HTTPClient.t :=
  {| HTTPClient.m_pipelines := []; HTTPClient.m_certificates := ∅;
     HTTPClient.m_timeout_value := 10 |}.

Definition known : HTTPClient.t :=
  HTTPClient.SendRequest Resolve order blank index "localhost" 80 false 0 1 client.

Definition session : list client_call :=
  [ DoSendRequest index "localhost" 80 false 0 1;
    DoLoadCertificate "localhost" (Some 7%N) "localhost";
    DoSendRequest about "localhost" 80 true 2 3;
    DoSendRequest index "localhost" 443 true 4 5;
    DoGetResponse index "localhost" 80;
    DoSetTimeoutValue 30 ].

End Exchange.

(** * Properties *)

(** ** The frame buffer *)

Section Codec.

Import Message.

Lemma Z_of_byte_range (b : byte) : 0 <= Z_of_byte b < 256.
Proof.
  unfold Z_of_byte. pose proof (Byte.to_N_bounded b) as Hb.
  split; [apply N2Z.is_nonneg | lia].
Qed.

Lemma Z_of_byte_of_Z (z : Z) : Z_of_byte (byte_of_Z z) = z mod 256.
Proof.
  unfold Z_of_byte, byte_of_Z.
  assert (0 <= z mod 256 < 256) as Hz by (apply Z.mod_pos_bound; lia).
  destruct (Byte.of_N (Z.to_N (z mod 256))) as [b|] eqn:E.
  - apply Byte.to_of_N in E. rewrite E. apply Z2N.id; lia.
  - apply Byte.of_N_None_iff in E. lia.
Qed.

Lemma length_split (n : nat) (v : Z) : length (split n v) = n.
Proof. revert v; induction n as [|n IH]; intros v; simpl; [done | by rewrite IH]. Qed.

Lemma combine_split (n : nat) (v : Z) :
  combine (split n v) = v mod 2 ^ (8 * Z.of_nat n).
Proof.
  revert v; induction n as [|n IH]; intros v.
  - simpl. by rewrite Z.mod_1_r.
  - cbn [split combine]. rewrite Z_of_byte_of_Z, IH.
    replace (8 * Z.of_nat (S n)) with (8 + 8 * Z.of_nat n) by lia.
    rewrite Z.pow_add_r by lia. change (2 ^ 8) with 256.
    rewrite Z.rem_mul_r by lia. reflexivity.
Qed.

Lemma read_app (bs : list byte) (rest : t) :
  read (length bs) (bs ++ rest) = Some (bs, rest).
Proof.
  unfold read. rewrite length_app.
  destruct (Nat.leb_spec (length bs) (length bs + length rest)) as [_|?]; [|lia].
  by rewrite take_app_length, drop_app_length.
Qed.

Lemma bits_of_pos (T : value_type) : 8 <= bits_of T.
Proof. destruct T; unfold bits_of; simpl; lia. Qed.

Lemma decode_encode (T : value_type) (v : Z) :
  in_range T v → SyncedType.decode T (SyncedType.encode T v) = v.
Proof.
  unfold in_range, SyncedType.decode, SyncedType.encode. intros Hv.
  rewrite combine_split. fold (bits_of T).
  pose proof (bits_of_pos T) as Hb.
  assert (0 < 2 ^ bits_of T) as Hpos by (apply Z.pow_pos_nonneg; lia).
  rewrite Z.mod_mod by lia.
  assert (2 ^ bits_of T = 2 * 2 ^ (bits_of T - 1)) as Hhalf.
  { rewrite <- Z.pow_succ_r by lia. f_equal. lia. }
  destruct (is_signed T); simpl.
  - destruct (Z_lt_le_dec v 0) as [Hneg|Hnn].
    + assert (v mod 2 ^ bits_of T = v + 2 ^ bits_of T) as ->.
      { symmetry. apply (Z.mod_unique _ _ (-1)); lia. }
      destruct (Z.leb_spec (2 ^ (bits_of T - 1)) (v + 2 ^ bits_of T)); lia.
    + rewrite Z.mod_small by lia.
      destruct (Z.leb_spec (2 ^ (bits_of T - 1)) v); lia.
  - apply Z.mod_small; lia.
Qed.

Lemma length_encode (T : value_type) (v : Z) :
  length (SyncedType.encode T v) = size_of T.
Proof. apply length_split. Qed.

End Codec.

(** ** Field mutations keep the schema *)

Section Mutations.

Variable compares : SynchronizationType → bool.

Lemma SetValue_T_of v f : T_of (SyncedType.SetValue compares v f) = T_of f.
Proof. unfold SyncedType.SetValue. by destruct (_ && _). Qed.

Lemma SetValue_U_of v f : U_of (SyncedType.SetValue compares v f) = U_of f.
Proof. unfold SyncedType.SetValue. by destruct (_ && _). Qed.

Lemma SetValue_m_value v f : m_value (SyncedType.SetValue compares v f) = v.
Proof. unfold SyncedType.SetValue. by destruct (_ && _). Qed.

Lemma mutate_schema mutation o :
  schema (SyncedObject.mutate compares mutation o) = schema o.
Proof.
  unfold schema, SyncedObject.mutate; simpl.
  rewrite (list_fmap_alter _ _ id).
  - by apply list_alter_id.
  - apply Forall_forall. intros f _. apply SetValue_T_of.
Qed.

Lemma mutate_policies mutation o :
  U_of <$> m_members (SyncedObject.mutate compares mutation o)
  = U_of <$> m_members o.
Proof.
  unfold SyncedObject.mutate; simpl.
  rewrite (list_fmap_alter _ _ id).
  - by apply list_alter_id.
  - apply Forall_forall. intros f _. apply SetValue_U_of.
Qed.

Lemma mutate_well_typed mutation o :
  Forall well_typed (m_members o) →
  mutation_fits (schema o) mutation →
  Forall well_typed (m_members (SyncedObject.mutate compares mutation o)).
Proof.
  intros Ho Hfit. destruct mutation as [i v].
  unfold SyncedObject.mutate, mutation_fits, schema in *; simpl in *.
  apply Forall_lookup. intros j f Hj.
  rewrite list_lookup_alter in Hj.
  rewrite list_lookup_fmap in Hfit.
  destruct (decide (i = j)) as [->|Hne].
  - destruct (m_members o !! j) as [g|] eqn:Hg; simplify_eq/=.
    unfold well_typed. by rewrite SetValue_T_of, SetValue_m_value.
  - by eapply (Forall_lookup_1 _ _ _ _ Ho).
Qed.

Lemma mutate_all_schema mutations o :
  schema (SyncedObject.mutate_all compares mutations o) = schema o.
Proof.
  revert o; induction mutations as [|mu mus IH]; intros o; [done|].
  simpl. by rewrite IH, mutate_schema.
Qed.

Lemma mutate_all_policies mutations o :
  U_of <$> m_members (SyncedObject.mutate_all compares mutations o)
  = U_of <$> m_members o.
Proof.
  revert o; induction mutations as [|mu mus IH]; intros o; [done|].
  simpl. by rewrite IH, mutate_policies.
Qed.

Lemma mutate_all_well_typed mutations o :
  Forall well_typed (m_members o) →
  Forall (mutation_fits (schema o)) mutations →
  Forall well_typed (m_members (SyncedObject.mutate_all compares mutations o)).
Proof.
  revert o; induction mutations as [|mu mus IH]; intros o Ho Hfit; [done|].
  inversion_clear Hfit as [|? ? Hmu Hmus]. simpl. apply IH.
  - by apply mutate_well_typed.
  - by rewrite mutate_schema.
Qed.

End Mutations.

(** ** Serialisation of the members *)

Section Serialisation.

Import SyncedType.

Lemma Serialize_appends sync_type f message :
  Serialize sync_type f message
  = (after sync_type f, message ++ written sync_type f).
Proof.
  unfold after, written, Serialize, Message.write.
  destruct (due sync_type f), sync_type; simpl; by rewrite ?app_nil_r.
Qed.

Lemma Serialize_members_appends sync_type members message :
  SyncedObject.Serialize_members sync_type members message
  = (after sync_type <$> members,
     message ++ concat (written sync_type <$> members)).
Proof.
  revert message; induction members as [|m ms IH]; intros message.
  - simpl. by rewrite app_nil_r.
  - cbn [SyncedObject.Serialize_members]. rewrite Serialize_appends, IH.
    simpl. by rewrite <- app_assoc.
Qed.

Lemma written_Full f : written Full f = encode (T_of f) (m_value f).
Proof. reflexivity. Qed.

Lemma after_Full f : after Full f = f.
Proof. reflexivity. Qed.

Lemma written_Delta f :
  written Delta f = if due Delta f then encode (T_of f) (m_value f) else [].
Proof. unfold written, Serialize. by destruct (due Delta f). Qed.

Lemma after_Delta f :
  after Delta f = if due Delta f then SetModified false f else f.
Proof. unfold after, Serialize. by destruct (due Delta f). Qed.

Lemma after_Delta_not_due f : due Delta (after Delta f) = false.
Proof.
  rewrite after_Delta. destruct (due Delta f) eqn:E; [|done].
  unfold due in *. simpl. by destruct (U_of f).
Qed.

Lemma after_Delta_written f : due Delta f = true → m_modified (after Delta f) = false.
Proof. intros E. by rewrite after_Delta, E. Qed.

(** Reading back, in the same order, what a Full pass wrote. *)
Lemma Deserialize_members_Full (mirror members : list BaseSyncedType) rest :
  Forall well_typed members →
  T_of <$> mirror = T_of <$> members →
  SyncedObject.Deserialize_members Full mirror
    (concat (written Full <$> members) ++ rest)
  = Some (zip_with (λ f' f, with_value (m_value f) f') mirror members, rest).
Proof.
  intros Hty. revert mirror.
  induction Hty as [|m ms Hm _ IH]; intros [|m' ms'] Hschema;
    simplify_eq/=; [done|].
  unfold Deserialize. change (due Full m') with true. cbv iota.
  rewrite written_Full, <- app_assoc.
  replace (size_of (T_of m')) with (length (encode (T_of m) (m_value m)))
    by (rewrite length_encode; congruence).
  rewrite read_app. rewrite IH by done.
  replace (T_of m') with (T_of m) by done. by rewrite decode_encode.
Qed.

Lemma zip_with_values (mirror members : list BaseSyncedType) :
  length mirror = length members →
  m_value <$> zip_with (λ f' f, with_value (m_value f) f') mirror members
  = m_value <$> members.
Proof.
  revert members; induction mirror as [|m' ms' IH]; intros [|m ms] Hlen;
    simplify_eq/=; [done|]. by rewrite IH.
Qed.

Lemma zip_with_types (mirror members : list BaseSyncedType) :
  length mirror = length members →
  T_of <$> zip_with (λ f' f, with_value (m_value f) f') mirror members
  = T_of <$> mirror.
Proof.
  revert members; induction mirror as [|m' ms' IH]; intros [|m ms] Hlen;
    simplify_eq/=; [done|]. by rewrite IH.
Qed.

End Serialisation.

(** C1.  Serialising an object, after any sequence of field mutations, and
    deserialising the message into a mirror object whose members were
    registered in the same order (same member types, slot by slot) succeeds,
    gives every member of the mirror the current value of the corresponding
    member of the object, and consumes exactly the bytes that were produced:
    whatever follows them in the buffer is left unread.  Serialising leaves
    the object as it was. *)
Theorem Serialize_Deserialize_round_trip
    (compares : SynchronizationType → bool)
    (o mirror : SyncedObject) (mutations : list (nat * Z)) (rest : Message.t) :
  Forall well_typed (m_members o) →
  Forall (mutation_fits (schema o)) mutations →
  schema mirror = schema o →
  let current := SyncedObject.mutate_all compares mutations o in
  let message := (SyncedObject.Serialize SyncedType.Full current).2 in
  (SyncedObject.Serialize SyncedType.Full current).1 = current ∧
  ∃ mirror',
    SyncedObject.Deserialize SyncedType.Full (message ++ rest) mirror
    = Some (mirror', rest) ∧
    m_value <$> m_members mirror' = m_value <$> m_members current ∧
    schema mirror' = schema mirror ∧
    m_id mirror' = m_id mirror.
Proof.
  intros Hty Hfit Hschema current message.
  assert (Forall well_typed (m_members current)) as Hcur
    by by apply mutate_all_well_typed.
  assert (schema mirror = schema current) as Hsame
    by (unfold current; by rewrite mutate_all_schema).
  unfold message, SyncedObject.Serialize, SyncedObject.Deserialize.
  rewrite Serialize_members_appends. simpl.
  split.
  { destruct current; unfold with_members; simpl. f_equal.
    clear. induction m_members0 as [|m ms IH]; [done|]. simpl. by f_equal. }
  rewrite Deserialize_members_Full by done.
  assert (length (m_members mirror) = length (m_members current)) as Hlen.
  { apply (f_equal length) in Hsame. unfold schema in Hsame.
    by rewrite !length_fmap in Hsame. }
  eexists; split; [reflexivity|]. simpl. split; [|split; [|done]].
  - by apply zip_with_values.
  - unfold schema. simpl. by apply zip_with_types.
Qed.


(** C8.  For an object whose members are all Dynamic, after any sequence of
    mutations: one Delta serialisation clears the dirty flag of every member
    it writes (so no member is dirty afterwards), and a second Delta
    serialisation right after it marks no member present and has an empty
    payload. *)
Theorem Delta_twice_is_empty
    (compares : SynchronizationType → bool)
    (o : SyncedObject) (mutations : list (nat * Z)) :
  Forall (λ f, SyncedType.GetSynchronizationType f = Dynamic) (m_members o) →
  let current := SyncedObject.mutate_all compares mutations o in
  let first := SyncedObject.deltaSerialize current in
  let second := SyncedObject.deltaSerialize first.1 in
  (∀ i f, first.2.1 !! i = Some true → m_members first.1 !! i = Some f →
          SyncedType.GetModified f = false) ∧
  Forall (λ f, SyncedType.GetModified f = false) (m_members first.1) ∧
  second.2.1 = replicate (length (m_members o)) false ∧
  second.2.2 = [] ∧
  second.1 = first.1.
Proof.
  intros Hdyn current first second.
  assert (Forall (λ f, U_of f = Dynamic) (m_members current)) as Hcur.
  { apply Forall_fmap with (f := U_of) (P := λ u, u = Dynamic).
    unfold current. rewrite mutate_all_policies. by apply Forall_fmap. }
  assert (length (m_members current) = length (m_members o)) as Hlen.
  { pose proof (mutate_all_schema compares mutations o) as Hs.
    apply (f_equal length) in Hs. unfold schema in Hs.
    by rewrite !length_fmap in Hs. }
  assert (first = (with_members (after SyncedType.Delta <$> m_members current) current,
                   (SyncedType.due SyncedType.Delta <$> m_members current,
                    concat (written SyncedType.Delta <$> m_members current)))) as Hfirst.
  { unfold first, SyncedObject.deltaSerialize, SyncedObject.Serialize.
    by rewrite Serialize_members_appends. }
  assert (second = (first.1,
                    (SyncedType.due SyncedType.Delta <$> m_members first.1,
                     concat (written SyncedType.Delta <$> m_members first.1)))) as Hsecond.
  { unfold second, SyncedObject.deltaSerialize, SyncedObject.Serialize.
    rewrite Serialize_members_appends. simpl. f_equal.
    rewrite Hfirst. simpl. unfold with_members. simpl. f_equal.
    generalize (m_members current). intros ms.
    induction ms as [|m ms IH]; [done|]. simpl. f_equal; [|done].
    rewrite (after_Delta (after _ m)). by rewrite after_Delta_not_due. }
  rewrite Hsecond, Hfirst. simpl. clear Hfirst Hsecond first second.
  split; [|split; [|split; [|split]]]; [| | | |done].
  - intros i f Hi Hf. unfold with_members in Hf; simpl in Hf.
    rewrite list_lookup_fmap in Hi. rewrite list_lookup_fmap in Hf.
    destruct (m_members current !! i) as [g|]; simplify_eq/=.
    by apply after_Delta_written.
  - apply Forall_fmap. eapply Forall_impl; [exact Hcur|].
    intros f Hf. simpl. unfold SyncedType.GetModified.
    rewrite after_Delta. unfold SyncedType.due. rewrite Hf.
    by destruct (m_modified f) eqn:E.
  - rewrite <- Hlen.
    generalize (m_members current). intros ms.
    induction ms as [|m ms IH]; [done|].
    rewrite !fmap_cons. cbn [length replicate].
    by rewrite after_Delta_not_due, IH.
  - generalize (m_members current). intros ms.
    induction ms as [|m ms IH]; [done|].
    rewrite !fmap_cons. cbn [concat].
    by rewrite written_Delta, after_Delta_not_due, IH.
Qed.

(** C10.  A newly constructed field has its dirty flag set, by the in-class
    initialiser [m_modified = true]: [GetModified] answers true before any
    write.  So the first Delta pass over an object whose members were just
    constructed marks exactly the Dynamic members present and carries the
    value of each of them, mutated or not. *)
Theorem new_field_is_modified
    (owner : addr) (T : value_type) (U : SynchronizationType) (v : Z)
    (fields : list (value_type * SynchronizationType * Z)) (o : SyncedObject) :
  SyncedType.GetModified (BaseSyncedType_init T U v) = true ∧
  SyncedType.GetModified (SyncedType.ctor owner T U v) = true ∧
  SyncedType.due SyncedType.Delta (SyncedType.ctor owner T Dynamic v) = true ∧
  let fresh := with_members ((λ x, SyncedType.ctor owner x.1.1 x.1.2 x.2) <$> fields) o in
  (SyncedObject.deltaSerialize fresh).2.1
  = (λ x, bool_decide (x.1.2 = Dynamic)) <$> fields ∧
  (SyncedObject.deltaSerialize fresh).2.2
  = concat ((λ x, if bool_decide (x.1.2 = Dynamic)
                  then SyncedType.encode x.1.1 x.2 else []) <$> fields).
Proof.
  repeat split.
  - unfold SyncedObject.deltaSerialize, SyncedObject.Serialize.
    rewrite Serialize_members_appends. simpl.
    rewrite <- list_fmap_compose. apply list_fmap_ext.
    intros _ [[T' U'] v'] _. simpl. by destruct U'.
  - unfold SyncedObject.deltaSerialize, SyncedObject.Serialize.
    rewrite Serialize_members_appends. simpl.
    rewrite <- list_fmap_compose. f_equal. apply list_fmap_ext.
    intros _ [[T' U'] v'] _. simpl. rewrite written_Delta. by destruct U'.
Qed.


(** ** Methods, step by step *)

Ltac unfold_method :=
  unfold SyncedObject.ctor, SyncedObject.move_ctor, SyncedObject.move_assign,
    SyncedObject.dtor, SyncedObject.GetID, SyncedObject.SetID,
    SyncedObject.NotifyChanged, SyncedObject.SetSynchronizer,
    SyncedObject.AddObject, SyncedObject.RemoveObject,
    SyncedObject.MoveObject, SyncedObject.UpdateObject,
    SyncedObject.IsDestroyed, SyncedObject.NewID,
    on_synchronizer, construct, release, update, deref, bind, ret.

Lemma ctor_result changed this w :
  objects w !! this = None →
  SyncedObject.ctor changed this w
  = Some (tt, with_objects
                (<[this := SyncedObject.init (SyncedObject.increment (m_last_id w)) changed]>
                   (objects w))
                (with_last_id (SyncedObject.increment (m_last_id w)) w)).
Proof. intros Hfree. unfold_method. simpl. by rewrite Hfree. Qed.

Lemma ctor_inv changed this w w' :
  SyncedObject.ctor changed this w = Some (tt, w') →
  objects w !! this = None ∧
  m_last_id w' = SyncedObject.increment (m_last_id w) ∧
  objects w' = <[this := SyncedObject.init (m_last_id w') changed]> (objects w).
Proof.
  unfold_method. simpl. intros H.
  destruct (objects w !! this) eqn:E; simplify_eq/=. done.
Qed.

Lemma dtor_inv this w w' :
  SyncedObject.dtor this w = Some (tt, w') →
  is_Some (objects w !! this) ∧
  m_last_id w' = m_last_id w ∧
  objects w' = delete this (objects w).
Proof.
  unfold_method. intros H.
  destruct (objects w !! this) as [t|] eqn:E; simplify_eq/=.
  destruct (m_synchronizer t) as [s|]; simpl in H.
  - rewrite E in H. destruct (synchronizers w !! s); simplify_eq/=.
    rewrite E in H. simplify_eq/=. eauto.
  - rewrite E in H. simplify_eq/=. eauto.
Qed.

(** ** The identifier counter *)

Lemma increment_below last :
  0 <= last < id_max → SyncedObject.increment last = last + 1.
Proof.
  unfold SyncedObject.increment, id_max. intros H.
  apply Z.mod_small. lia.
Qed.

Lemma increment_at_max : SyncedObject.increment id_max = 0.
Proof. reflexivity. Qed.

Lemma nth_NewID_closed (n : N) (last : Z) :
  nth_NewID (N.succ n) last = (last + Z.of_N (N.succ n)) mod id_modulus.
Proof.
  unfold nth_NewID. induction n as [|n IH] using N.peano_ind.
  - reflexivity.
  - rewrite N.iter_succ, IH. unfold SyncedObject.increment.
    rewrite Zplus_mod_idemp_l. f_equal. lia.
Qed.

Lemma run_ids changed events : ∀ w ids w',
  run changed events w = Some (ids, w') →
  0 <= m_last_id w →
  m_last_id w + Z.of_nat (length (constructions events)) < id_modulus →
  m_last_id w' = m_last_id w + Z.of_nat (length (constructions events)) ∧
  Forall (λ id, m_last_id w < id <= m_last_id w') ids ∧
  StronglySorted Z.lt ids ∧
  (live_ids_allocated w → live_ids_allocated w') ∧
  (live_ids_allocated w → live_ids_distinct w → live_ids_distinct w').
Proof.
  induction events as [|[this|this] rest IH]; intros w ids w' Hrun Hpos Hroom.
  - cbv [run ret] in Hrun. injection Hrun as <- <-. simpl. rewrite Z.add_0_r.
    repeat split; auto. constructor.
  - cbn [run] in Hrun. unfold bind in Hrun at 1.
    destruct (SyncedObject.ctor changed this w) as [[[] w1]|] eqn:Hc; [|done].
    apply ctor_inv in Hc as (Hfree & Hlast & Hobjs).
    cbv [bind SyncedObject.GetID deref ret] in Hrun.
    rewrite Hobjs, lookup_insert_eq in Hrun. simpl in Hrun.
    destruct (run changed rest w1) as [[ids1 w2]|] eqn:Hr; simplify_eq/=.
    rewrite increment_below in Hlast by (unfold id_max; lia).
    apply IH in Hr as (Hlast' & Hids & Hsorted & Halloc & Hdist); [|lia..].
    split; [lia|]. split; [|split; [|split]].
    + constructor; [lia|]. eapply Forall_impl; [exact Hids|]. simpl. lia.
    + constructor; [done|]. eapply Forall_impl; [exact Hids|]. simpl. lia.
    + intros Hw. apply Halloc. intros a o. rewrite Hobjs.
      rewrite lookup_insert. case_decide; intros Ho; simplify_eq/=; [lia|].
      specialize (Hw _ _ Ho). lia.
    + intros Hw Hd. apply Hdist.
      * intros a o. rewrite Hobjs.
        rewrite lookup_insert. case_decide; intros Ho; simplify_eq/=; [lia|].
        specialize (Hw _ _ Ho). lia.
      * intros a b oa ob. rewrite Hobjs, !lookup_insert.
        repeat case_decide; intros Ha Hb Heq; simplify_eq/=; try done.
        -- specialize (Hw _ _ Hb). lia.
        -- specialize (Hw _ _ Ha). lia.
        -- by eapply Hd.
  - cbn [run] in Hrun. unfold bind in Hrun at 1.
    destruct (SyncedObject.dtor this w) as [[[] w1]|] eqn:Hd1; [|done].
    apply dtor_inv in Hd1 as (_ & Hlast & Hobjs). simpl in Hroom.
    apply IH in Hrun as (Hlast' & Hids & Hsorted & Halloc & Hdist);
      [|lia..].
    rewrite Hlast in *.
    split; [done|]. split; [done|]. split; [done|]. split.
    + intros Hw. apply Halloc. intros a o. rewrite Hobjs, Hlast.
      intros [_ Ho]%lookup_delete_Some. by eapply Hw.
    + intros Hw Hd. apply Hdist.
      * intros a o. rewrite Hobjs, Hlast.
        intros [_ Ho]%lookup_delete_Some. by eapply Hw.
      * intros a b oa ob. rewrite Hobjs.
        intros [_ Ha]%lookup_delete_Some [_ Hb]%lookup_delete_Some.
        by eapply Hd.
Qed.

Lemma nth_NewID_shift (n : N) (last : Z) :
  nth_NewID n (SyncedObject.increment last) = nth_NewID (N.succ n) last.
Proof. unfold nth_NewID. by rewrite N.iter_succ_r. Qed.

Lemma run_nth_NewID changed events : ∀ w ids w',
  run changed events w = Some (ids, w') →
  ∀ k id, ids !! k = Some id → id = nth_NewID (N.of_nat (S k)) (m_last_id w).
Proof.
  induction events as [|[this|this] rest IH]; intros w ids w' Hrun k id Hk.
  - cbv [run ret] in Hrun. by simplify_eq/=.
  - cbn [run] in Hrun. unfold bind in Hrun at 1.
    destruct (SyncedObject.ctor changed this w) as [[[] w1]|] eqn:Hc; [|done].
    apply ctor_inv in Hc as (Hfree & Hlast & Hobjs).
    cbv [bind SyncedObject.GetID deref ret] in Hrun.
    rewrite Hobjs, lookup_insert_eq in Hrun. simpl in Hrun.
    destruct (run changed rest w1) as [[ids1 w2]|] eqn:Hr;
      cbn in Hrun; simplify_eq.
    destruct k as [|k]; cbn in Hk.
    + injection Hk as <-. by rewrite Hlast.
    + rewrite (IH _ _ _ Hr _ _ Hk), Hlast, nth_NewID_shift.
      f_equal; lia.
  - cbn [run] in Hrun. unfold bind in Hrun at 1.
    destruct (SyncedObject.dtor this w) as [[[] w1]|] eqn:Hd1; [|done].
    apply dtor_inv in Hd1 as (_ & Hlast & _).
    rewrite <- Hlast. by eapply IH.
Qed.

Lemma dtor_succeeds this w o :
  objects w !! this = Some o →
  valid_synchronizer w (m_synchronizer o) →
  ∃ w', SyncedObject.dtor this w = Some (tt, w') ∧
        ∀ p, valid_synchronizer w p → valid_synchronizer w' p.
Proof.
  intros Hthis Hvalid. unfold_method. rewrite Hthis. simpl.
  destruct (m_synchronizer o) as [s|]; simpl.
  - destruct Hvalid as [sy Hsy]. rewrite Hthis. simpl. rewrite Hsy. simpl.
    rewrite Hthis. eexists; split; [reflexivity|].
    intros [s'|]; simpl; [|done]. rewrite lookup_insert.
    case_decide; [by eexists|done].
  - rewrite Hthis. eexists; split; [reflexivity|]. by intros [s'|].
Qed.

Lemma run_succeeds changed events : ∀ w,
  pointers_valid w →
  feasible (dom (objects w)) events = true →
  is_Some (run changed events w).
Proof.
  induction events as [|[this|this] rest IH]; intros w Hvalid Hfeasible.
  - by eexists.
  - cbn [feasible] in Hfeasible.
    apply andb_true_iff in Hfeasible as [Hfree Hrest].
    apply bool_decide_eq_true, not_elem_of_dom in Hfree.
    cbn [run]. unfold bind at 1. rewrite (ctor_result _ _ _ Hfree).
    set (w1 := with_objects _ _).
    destruct (IH w1) as [[ids w2] Hrun].
    + intros a o. unfold w1. simpl. rewrite lookup_insert.
      case_decide; [by intros [= <-]|]. apply Hvalid.
    + unfold w1. simpl. by rewrite dom_insert_L.
    + cbv [bind SyncedObject.GetID deref ret].
      replace (objects w1 !! this) with (Some (SyncedObject.init
        (SyncedObject.increment (m_last_id w)) changed))
        by (unfold w1; simpl; by rewrite lookup_insert_eq).
      rewrite Hrun. by eexists.
  - cbn [feasible] in Hfeasible.
    apply andb_true_iff in Hfeasible as [Hlive Hrest].
    apply bool_decide_eq_true, elem_of_dom in Hlive as [o Hthis].
    destruct (dtor_succeeds _ _ _ Hthis (Hvalid _ _ Hthis)) as (w1 & Hd & Hkeep).
    cbn [run]. unfold bind at 1. rewrite Hd.
    apply dtor_inv in Hd as (_ & _ & Hobjs).
    apply IH.
    + intros a oa. rewrite Hobjs. intros [_ Ha]%lookup_delete_Some.
      apply Hkeep. by eapply Hvalid.
    + by rewrite Hobjs, dom_delete_L.
Qed.

(** C2, as far as the counter reaches.  A run of default constructions (in
    storage that is free) and destructions (of live objects) that does not
    take the counter past its maximum is carried out, and the identifiers
    it assigns are strictly increasing and all above the counter the run
    started from, whatever was destroyed in between: none equals an
    identifier handed out earlier.  If the live objects had pairwise distinct
    identifiers handed out by the counter before the run, so have those live
    after it. *)
Theorem identifiers_strictly_increasing
    (changed : bool) (events : list event) (w : world) :
  0 <= m_last_id w →
  m_last_id w + Z.of_nat (length (constructions events)) < id_modulus →
  live_ids_allocated w →
  live_ids_distinct w →
  pointers_valid w →
  feasible (dom (objects w)) events = true →
  ∃ ids w',
    run changed events w = Some (ids, w') ∧
    StronglySorted Z.lt ids ∧
    Forall (λ id, m_last_id w < id) ids ∧
    (∀ k id, ids !! k = Some id → id = m_last_id w + Z.of_nat (S k)) ∧
    length ids = length (constructions events) ∧
    live_ids_allocated w' ∧
    live_ids_distinct w'.
Proof.
  intros Hpos Hroom Halloc Hdist Hvalid Hfeasible.
  destruct (run_succeeds changed _ _ Hvalid Hfeasible) as [[ids w'] Hrun].
  exists ids, w'. split; [done|].
  pose proof (run_ids _ _ _ _ _ Hrun Hpos Hroom)
    as (Hlast & Hids & Hsorted & Ha & Hd).
  assert (length ids = length (constructions events)) as Hlen.
  { clear -Hrun. revert w ids w' Hrun.
    induction events as [|[this|this] rest IH]; intros w ids w' Hrun.
    + cbv [run ret] in Hrun. by simplify_eq/=.
    + cbn [run] in Hrun. unfold bind in Hrun at 1.
      destruct (SyncedObject.ctor changed this w) as [[[] w1]|] eqn:Hc; [|done].
      apply ctor_inv in Hc as (Hfree & Hlast & Hobjs).
      cbv [bind SyncedObject.GetID deref ret] in Hrun.
      rewrite Hobjs, lookup_insert_eq in Hrun. simpl in Hrun.
      destruct (run changed rest w1) as [[ids1 w2]|] eqn:Hr; simplify_eq/=.
      f_equal. by eapply IH.
    + cbn [run] in Hrun. unfold bind in Hrun at 1.
      destruct (SyncedObject.dtor this w) as [[[] w1]|] eqn:Hd1; [|done].
      simpl. by eapply IH. }
  split; [done|]. split; [|split; [|split; [done|split]]]; auto.
  - eapply Forall_impl; [exact Hids|]. simpl. lia.
  - intros k id Hk.
    assert (k < length ids)%nat as Hlt by by eapply lookup_lt_Some.
    rewrite (run_nth_NewID _ _ _ _ _ Hrun _ _ Hk).
    rewrite Nat2N.inj_succ, nth_NewID_closed.
    rewrite <- Nat2N.inj_succ, nat_N_Z. apply Z.mod_small. lia.
Qed.

(** C2, counterexample.  [NewID] hands out 1 at its first call in a process
    whose counter starts at 0, and 1 again at call number 2^64 + 1 (by
    [run_nth_NewID] these are the identifiers of the first and of the last
    construction of a run): the identifiers of a run of that many
    constructions are not strictly increasing, and the first and the last
    object share one. *)
Lemma identifiers_repeat_after_wrap :
  nth_NewID 1 0 = 1 ∧ nth_NewID (2 ^ 64 + 1) 0 = 1.
Proof.
  split; [reflexivity|].
  change (2 ^ 64 + 1)%N with (N.succ (2 ^ 64)).
  rewrite nth_NewID_closed. reflexivity.
Qed.

(** C3, as the code has it.  [NewID] succeeds in every counter state and
    returns the new counter value: one more than the previous value as long
    as that is below the maximum, and 0 (the counter wraps around, nothing
    saturates and nothing is reported) when the previous value is the
    maximum. *)
Theorem NewID_increments_and_wraps (w : world) :
  0 <= m_last_id w < id_modulus →
  ∃ id,
    SyncedObject.NewID w = Some (id, with_last_id id w) ∧
    0 <= id < id_modulus ∧
    (m_last_id w < id_max → id = m_last_id w + 1) ∧
    (m_last_id w = id_max → id = 0).
Proof.
  intros Hrange. exists (SyncedObject.increment (m_last_id w)).
  split; [reflexivity|]. split; [|split].
  - unfold SyncedObject.increment. apply Z.mod_pos_bound. done.
  - intros Hlt. apply increment_below. lia.
  - intros ->. apply increment_at_max.
Qed.

(** C3, counterexample.  With the counter at its maximum, [NewID] returns 0,
    which is smaller than the identifier allocated before it. *)
Lemma NewID_at_maximum_wraps :
  SyncedObject.NewID (start id_max) = Some (0, start 0) ∧ 0 < id_max.
Proof. split; reflexivity. Qed.

(** ** The synchronizer callbacks *)

Lemma MoveObject_schedule from to sy :
  Synchronizer.schedule (Synchronizer.MoveObject from to sy)
  = Synchronizer.schedule sy.
Proof.
  unfold Synchronizer.schedule, Synchronizer.MoveObject. simpl.
  f_equal. f_equal. rewrite <- map_fmap_compose.
  apply map_fmap_ext. intros id e _. simpl.
  unfold Synchronizer.repoint. by case_decide.
Qed.

Lemma MoveObject_rows from to sy id :
  Synchronizer.m_objects (Synchronizer.MoveObject from to sy) !! id
  = Synchronizer.repoint from to <$> Synchronizer.m_objects sy !! id.
Proof. unfold Synchronizer.MoveObject. simpl. apply lookup_fmap. Qed.

Lemma MoveObject_forgets from to sy :
  from ≠ to →
  ¬ Synchronizer.references (Synchronizer.MoveObject from to sy) from.
Proof.
  intros Hne (id & e & Hrow & Href). rewrite MoveObject_rows in Hrow.
  destruct (Synchronizer.m_objects sy !! id) as [e0|]; [|done].
  simpl in Hrow. injection Hrow as <-.
  unfold Synchronizer.repoint in Href. case_decide; simpl in Href; congruence.
Qed.

Lemma MoveObject_repoints from to sy :
  Synchronizer.references sy from →
  Synchronizer.references (Synchronizer.MoveObject from to sy) to.
Proof.
  intros (id & e & Hrow & Href). exists id, (Synchronizer.repoint from to e).
  rewrite MoveObject_rows, Hrow. split; [done|].
  unfold Synchronizer.repoint. by rewrite decide_True.
Qed.

Lemma RemoveObject_forgets a id sy :
  keyed sy a id →
  ¬ Synchronizer.references (Synchronizer.RemoveObject a id sy) a.
Proof.
  intros Hkey (id' & e & Hrow & Href). unfold Synchronizer.RemoveObject in Hrow.
  simpl in Hrow. apply lookup_delete_Some in Hrow as [Hne Hrow].
  apply Hne. symmetry. by eapply Hkey.
Qed.

Lemma AddObject_destroyed a id sy :
  Synchronizer.IsDestroyed (Synchronizer.AddObject a id sy).2
  = Synchronizer.IsDestroyed sy.
Proof. unfold Synchronizer.AddObject. by destruct (_ !! id). Qed.

Lemma AddObject_rows a id sy id' e :
  Synchronizer.m_objects (Synchronizer.AddObject a id sy).2 !! id' = Some e →
  (id' = id ∧ e = Synchronizer.mkTracked a Synchronizer.Pending) ∨
  Synchronizer.m_objects sy !! id' = Some e.
Proof.
  unfold Synchronizer.AddObject.
  destruct (Synchronizer.m_objects sy !! id) eqn:E; simpl; [by right|].
  rewrite lookup_insert. case_decide; [|by right].
  intros [= <-]. by left.
Qed.

Lemma RemoveObject_rows a id sy id' e :
  Synchronizer.m_objects (Synchronizer.RemoveObject a id sy) !! id' = Some e →
  id' ≠ id ∧ Synchronizer.m_objects sy !! id' = Some e.
Proof.
  unfold Synchronizer.RemoveObject. simpl.
  intros [? ?]%lookup_delete_Some. split; [congruence|done].
Qed.

(** C9.  [NotifyChanged] on a live object sets the object's [m_changed] and
    leaves its other members, every other object and the counter as they
    were.  It calls [UpdateObject] on the object's synchronizer, once, if
    the object has one, and makes no call and touches no synchronizer if it
    has none. *)
Theorem NotifyChanged_sets_flag_and_updates
    (this : addr) (w : world) (o : SyncedObject) :
  objects w !! this = Some o →
  valid_synchronizer w (m_synchronizer o) →
  ∃ w',
    SyncedObject.NotifyChanged this w = Some (tt, w') ∧
    objects w'
    = <[this := {| m_synchronizer := m_synchronizer o; m_members := m_members o;
                   m_id := m_id o; m_changed := true |}]> (objects w) ∧
    (∃ o', objects w' !! this = Some o' ∧ m_changed o' = true ∧
           m_synchronizer o' = m_synchronizer o ∧ m_members o' = m_members o ∧
           m_id o' = m_id o) ∧
    (∀ a, a ≠ this → objects w' !! a = objects w !! a) ∧
    m_last_id w' = m_last_id w ∧
    calls w' = calls w ++ match m_synchronizer o with
                          | Some s => [CallUpdateObject s this]
                          | None => []
                          end ∧
    (m_synchronizer o = None → synchronizers w' = synchronizers w) ∧
    (∀ s sy, m_synchronizer o = Some s → synchronizers w !! s = Some sy →
             synchronizers w'
             = <[s := Synchronizer.UpdateObject this (m_id o) sy]> (synchronizers w)).
Proof.
  intros Hthis Hvalid. unfold_method. rewrite Hthis. simpl.
  rewrite lookup_insert_eq. simpl.
  destruct (m_synchronizer o) as [s|] eqn:Hs; simpl.
  - destruct Hvalid as [sy Hsy]. rewrite lookup_insert_eq. simpl. rewrite Hsy.
    eexists; split; [reflexivity|]. simpl.
    split; [unfold with_changed; by rewrite ?Hs|]. split.
    { eexists. split; [apply lookup_insert_eq|]. simpl. by rewrite ?Hs. }
    split; [by intros a Ha; rewrite lookup_insert_ne|].
    repeat split; try done.
    intros s' sy' [= <-] Hsy'. by simplify_eq.
  - eexists; split; [reflexivity|]. simpl. rewrite app_nil_r.
    split; [unfold with_changed; by rewrite ?Hs|]. split.
    { eexists. split; [apply lookup_insert_eq|]. simpl. by rewrite ?Hs. }
    split; [by intros a Ha; rewrite lookup_insert_ne|].
    repeat split; try done.
Qed.

(** C7.  Destroying a live object that points to a synchronizer makes
    exactly one call, [RemoveObject] on that synchronizer with the object's
    storage, before the storage is released; the synchronizer's table, keyed
    by identity, then holds no row that refers to the storage, and where
    attachment was consistent no synchronizer that is not destroyed does.
    Destroying an object that points to no synchronizer makes no call and
    leaves every synchronizer as it was. *)
Theorem dtor_deregisters (this : addr) (w : world) (o : SyncedObject) :
  objects w !! this = Some o →
  valid_synchronizer w (m_synchronizer o) →
  ∃ w',
    SyncedObject.dtor this w = Some (tt, w') ∧
    objects w' = delete this (objects w) ∧
    m_last_id w' = m_last_id w ∧
    calls w' = calls w ++ match m_synchronizer o with
                          | Some s => [CallRemoveObject s this]
                          | None => []
                          end ∧
    (m_synchronizer o = None → synchronizers w' = synchronizers w) ∧
    (∀ s sy, m_synchronizer o = Some s → synchronizers w !! s = Some sy →
             synchronizers w'
             = <[s := Synchronizer.RemoveObject this (m_id o) sy]> (synchronizers w) ∧
             (keyed sy this (m_id o) →
              ∀ sy', synchronizers w' !! s = Some sy' →
                     ¬ Synchronizer.references sy' this)) ∧
    (attachment_consistent w →
     ∀ s sy', synchronizers w' !! s = Some sy' →
              Synchronizer.IsDestroyed sy' = false →
              ¬ Synchronizer.references sy' this).
Proof.
  intros Hthis Hvalid. unfold_method. rewrite Hthis. simpl.
  destruct (m_synchronizer o) as [s|] eqn:Hs; simpl.
  - destruct Hvalid as [sy Hsy]. rewrite Hthis. simpl. rewrite Hsy. simpl.
    rewrite Hthis.
    eexists; split; [reflexivity|]. simpl.
    split; [done|]. split; [done|]. split; [done|]. split; [done|]. split.
    + intros s' sy0 [= <-] Hsy'. simplify_eq. split; [done|].
      intros Hkey sy'. rewrite lookup_insert_eq.
      intros [= <-]. by apply RemoveObject_forgets.
    + intros Hinv s' sy' Hs' Hd (id & e & Hrow & Href).
      rewrite lookup_insert in Hs'. destruct (decide (s = s')) as [<-|Hne].
      * apply (inj Some) in Hs'. subst sy'.
        apply RemoveObject_rows in Hrow as [Hid Hrow].
        by destruct (Hinv _ _ _ _ _ _ Hthis Hsy Hd Hrow Href) as [_ ->].
      * destruct (Hinv _ _ _ _ _ _ Hthis Hs' Hd Hrow Href) as [Hatt _].
        congruence.
  - rewrite Hthis. eexists; split; [reflexivity|]. simpl. rewrite app_nil_r.
    split; [done|]. split; [done|]. split; [done|]. split; [done|]. split.
    + by intros s' sy0 [=].
    + intros Hinv s' sy' Hs' Hd (id & e & Hrow & Href).
      destruct (Hinv _ _ _ _ _ _ Hthis Hs' Hd Hrow Href) as [Hatt _].
      congruence.
Qed.

(** C4.  Move-constructing an object, in free storage, from a live object
    that points to a synchronizer: the new object has the source's
    identifier and points to the source's synchronizer, the source points to
    none afterwards, and the only call made is one [MoveObject] from the
    source's storage to the new one (no [RemoveObject], no [AddObject]).
    That call leaves the synchronizer's schedule (tracked identifiers and
    their states, pending updates, destruction notices) as it was: every row
    of the source's storage now refers to the new storage and none to the
    old. *)
Theorem move_ctor_relocates
    (changed : bool) (this object : addr) (w : world) (o : SyncedObject)
    (s : sync_ptr) (sy : Synchronizer.t) :
  objects w !! object = Some o →
  objects w !! this = None →
  m_synchronizer o = Some s →
  synchronizers w !! s = Some sy →
  ∃ w' sy',
    SyncedObject.move_ctor changed this object w = Some (tt, w') ∧
    objects w'
    = <[object := with_synchronizer None o]>
        (<[this := with_synchronizer (Some s) (SyncedObject.init (m_id o) changed)]>
           (objects w)) ∧
    m_last_id w' = m_last_id w ∧
    calls w' = calls w ++ [CallMoveObject s object this] ∧
    synchronizers w' = <[s := sy']> (synchronizers w) ∧
    sy' = Synchronizer.MoveObject object this sy ∧
    Synchronizer.schedule sy' = Synchronizer.schedule sy ∧
    Synchronizer.m_notices sy' = Synchronizer.m_notices sy ∧
    (Synchronizer.references sy object → Synchronizer.references sy' this) ∧
    ¬ Synchronizer.references sy' object.
Proof.
  intros Hobject Hfree Hs Hsy.
  assert (this ≠ object) as Hne by congruence.
  unfold_method. rewrite Hobject. simpl. rewrite Hfree. simpl. rewrite Hs.
  simpl. rewrite lookup_insert_eq. simpl. rewrite Hsy. simpl.
  rewrite lookup_insert_ne by done. rewrite lookup_insert_ne by done.
  rewrite Hobject. simpl. rewrite insert_insert_eq.
  eexists _, _; split; [reflexivity|]. simpl.
  repeat split; try done.
  - apply MoveObject_schedule.
  - apply MoveObject_repoints.
  - by apply MoveObject_forgets.
Qed.

(** ** Reattachment *)

Lemma bind_Some {A B} (m : method A) (k : A → method B) w r :
  bind m k w = Some r ↔ ∃ a w1, m w = Some (a, w1) ∧ k a w1 = Some r.
Proof.
  unfold bind. destruct (m w) as [[a w1]|]; split.
  - eauto.
  - by intros (? & ? & [= <- <-] & ?).
  - done.
  - by intros (? & ? & ? & ?).
Qed.

Ltac decide_cases :=
  simpl; try done; repeat case_decide; try done;
  repeat match goal with H : _ ∧ _ |- _ => destruct H end;
  try congruence;
  try (exfalso; match goal with H : ¬ _ |- _ => apply H end; split; congruence).

Lemma detach_from_lookup this id current ss s :
  detach_from this id current ss !! s
  = (λ sy, if decide (current = Some s ∧ Synchronizer.IsDestroyed sy = false)
           then Synchronizer.RemoveObject this id sy else sy) <$> ss !! s.
Proof.
  unfold detach_from. destruct current as [s0|].
  - destruct (ss !! s0) as [sy0|] eqn:E0.
    + destruct (Synchronizer.IsDestroyed sy0) eqn:Ed.
      * destruct (ss !! s) as [sy|] eqn:E; decide_cases.
      * rewrite lookup_insert. case_decide as Hs.
        -- subst. rewrite E0. decide_cases.
        -- destruct (ss !! s) as [sy|] eqn:E; decide_cases.
    + destruct (ss !! s) as [sy|] eqn:E; decide_cases.
  - destruct (ss !! s) as [sy|] eqn:E; decide_cases.
Qed.

Lemma attach_to_lookup this id synchronizer ss s :
  attach_to this id synchronizer ss !! s
  = (λ sy, if decide (synchronizer = Some s)
           then (Synchronizer.AddObject this id sy).2 else sy) <$> ss !! s.
Proof.
  unfold attach_to. destruct synchronizer as [s0|].
  - destruct (ss !! s0) as [sy0|] eqn:E0.
    + rewrite lookup_insert. case_decide as Hs.
      * subst. rewrite E0. decide_cases.
      * destruct (ss !! s) as [sy|] eqn:E; decide_cases.
    + destruct (ss !! s) as [sy|] eqn:E; decide_cases.
  - destruct (ss !! s) as [sy|] eqn:E; decide_cases.
Qed.

Lemma SetSynchronizer_result this synchronizer w o :
  objects w !! this = Some o →
  valid_synchronizer w (m_synchronizer o) →
  valid_synchronizer w synchronizer →
  ∃ w',
    SyncedObject.SetSynchronizer this synchronizer w = Some (tt, w') ∧
    objects w' = <[this := with_synchronizer synchronizer o]> (objects w) ∧
    m_last_id w' = m_last_id w ∧
    calls w'
    = calls w ++ removal w this (m_synchronizer o) ++ addition this synchronizer ∧
    synchronizers w'
    = attach_to this (m_id o) synchronizer
        (detach_from this (m_id o) (m_synchronizer o) (synchronizers w)).
Proof.
  intros Hthis Hold Hnew. unfold SyncedObject.SetSynchronizer.
  unfold bind at 1. unfold deref at 1. rewrite Hthis.
  set (w1 := with_calls (calls w ++ removal w this (m_synchronizer o))
               (with_synchronizers
                  (detach_from this (m_id o) (m_synchronizer o) (synchronizers w)) w)).
  assert (match m_synchronizer o with
          | Some s =>
              let* destroyed := SyncedObject.IsDestroyed s in
              if negb destroyed then SyncedObject.RemoveObject s this else ret tt
          | None => ret tt
          end w = Some (tt, w1)) as Hfirst.
  { subst w1. unfold removal, detach_from.
    destruct (m_synchronizer o) as [s|]; simpl.
    - destruct Hold as [sy Hsy]. unfold_method. rewrite Hsy. simpl.
      destruct (Synchronizer.m_destroyed sy) eqn:Hd; simpl.
      + unfold Synchronizer.IsDestroyed. rewrite Hd, app_nil_r. by destruct w.
      + unfold Synchronizer.IsDestroyed. rewrite Hd. cbn beta iota delta [negb].
        rewrite Hthis. by rewrite Hsy.
    - unfold ret. rewrite app_nil_r. by destruct w. }
  unfold bind at 1. rewrite Hfirst.
  unfold bind at 1. unfold update at 1.
  replace (objects w1) with (objects w) by done. rewrite Hthis.
  unfold bind at 1. unfold deref at 1. simpl. rewrite lookup_insert_eq. simpl.
  unfold addition, attach_to. destruct synchronizer as [s'|]; simpl.
  - assert (is_Some (detach_from this (m_id o) (m_synchronizer o) (synchronizers w) !! s'))
      as [sy' Hsy'].
    { rewrite detach_from_lookup. destruct Hnew as [sy' ->]. by eexists. }
    unfold_method. simpl. rewrite lookup_insert_eq. simpl. rewrite Hsy'. simpl.
    eexists; split; [reflexivity|]. simpl. by rewrite app_assoc.
  - unfold ret. eexists; split; [reflexivity|]. simpl. by rewrite app_nil_r.
Qed.

Lemma SetSynchronizer_pre this synchronizer w r :
  SyncedObject.SetSynchronizer this synchronizer w = Some r →
  ∃ o, objects w !! this = Some o ∧
       valid_synchronizer w (m_synchronizer o) ∧
       valid_synchronizer w synchronizer.
Proof.
  unfold SyncedObject.SetSynchronizer.
  intros (o & w0 & Hderef & H)%bind_Some.
  unfold deref in Hderef.
  destruct (objects w !! this) as [o'|] eqn:Hthis; simplify_eq.
  exists o. split; [done|].
  apply bind_Some in H as ([] & w1 & Hfirst & H).
  assert (valid_synchronizer w0 (m_synchronizer o) ∧
          ∀ s, is_Some (synchronizers w1 !! s) → is_Some (synchronizers w0 !! s))
    as [Hold Hdom].
  { destruct (m_synchronizer o) as [s|]; simpl.
    - apply bind_Some in Hfirst as (d & w2 & Hd & Hrest).
      unfold SyncedObject.IsDestroyed in Hd.
      destruct (synchronizers w0 !! s) as [sy|] eqn:Hsy; simplify_eq.
      split; [by eexists|]. destruct (negb _).
      + cbv [SyncedObject.RemoveObject on_synchronizer deref bind] in Hrest.
        rewrite Hthis, Hsy in Hrest. simplify_eq/=. intros s'.
        rewrite lookup_insert. case_decide; subst; eauto.
      + unfold ret in Hrest. by simplify_eq.
    - unfold ret in Hfirst. by simplify_eq. }
  split; [done|].
  apply bind_Some in H as ([] & w2 & Hupd & H).
  unfold update in Hupd.
  destruct (objects w1 !! this) as [o1|] eqn:Hthis1; simplify_eq.
  apply bind_Some in H as (t & w3 & Hderef & H).
  unfold deref in Hderef. simpl in Hderef. rewrite lookup_insert_eq in Hderef.
  simplify_eq/=. destruct synchronizer as [s'|]; simpl; [|done].
  apply Hdom.
  cbv [SyncedObject.AddObject on_synchronizer deref bind] in H. simpl in H.
  rewrite lookup_insert_eq in H.
  unfold with_objects in H. cbn [synchronizers] in H.
  destruct (synchronizers w1 !! s'); [by eexists|done].
Qed.

Lemma reattached_rows (this : addr) (id : Z)
    (current synchronizer : option sync_ptr) (s : sync_ptr)
    (sy0 : Synchronizer.t) (id' : Z) (e : Synchronizer.tracked) :
  let detached :=
    if decide (current = Some s ∧ Synchronizer.IsDestroyed sy0 = false)
    then Synchronizer.RemoveObject this id sy0 else sy0 in
  let sy :=
    if decide (synchronizer = Some s)
    then (Synchronizer.AddObject this id detached).2 else detached in
  Synchronizer.m_objects sy !! id' = Some e →
  Synchronizer.IsDestroyed sy = Synchronizer.IsDestroyed sy0 ∧
  ((synchronizer = Some s ∧ id' = id ∧
    e = Synchronizer.mkTracked this Synchronizer.Pending) ∨
   (Synchronizer.m_objects sy0 !! id' = Some e ∧
    ¬ (current = Some s ∧ Synchronizer.IsDestroyed sy0 = false ∧ id' = id))).
Proof.
  intros detached sy Hrow.
  assert (Synchronizer.IsDestroyed detached = Synchronizer.IsDestroyed sy0) as Hd.
  { unfold detached. by case_decide. }
  assert (∀ e', Synchronizer.m_objects detached !! id' = Some e' →
                Synchronizer.m_objects sy0 !! id' = Some e' ∧
                ¬ (current = Some s ∧ Synchronizer.IsDestroyed sy0 = false ∧ id' = id))
    as Hdet.
  { intros e'. unfold detached. case_decide as Hc.
    - intros [Hne Hr]%RemoveObject_rows. split; [done|]. by intros (_ & _ & ?).
    - intros Hr. split; [done|]. intros (? & ? & _). by apply Hc. }
  unfold sy in *. case_decide as Hnew.
  - rewrite AddObject_destroyed. split; [done|].
    apply AddObject_rows in Hrow as [[-> ->]|Hr]; [by left|].
    right. by apply Hdet.
  - split; [done|]. right. by apply Hdet.
Qed.

Lemma attachment_preserved this synchronizer w o w' :
  attachment_consistent w →
  objects w !! this = Some o →
  objects w' = <[this := with_synchronizer synchronizer o]> (objects w) →
  synchronizers w'
  = attach_to this (m_id o) synchronizer
      (detach_from this (m_id o) (m_synchronizer o) (synchronizers w)) →
  attachment_consistent w'.
Proof.
  intros Hinv Hthis Hobjs Hsyncs a oa s sy id e Ha Hs Hd Hrow Href.
  rewrite Hobjs in Ha.
  rewrite Hsyncs, attach_to_lookup, detach_from_lookup in Hs.
  destruct (synchronizers w !! s) as [sy0|] eqn:Hsy0; simpl in Hs; [|done].
  apply (inj Some) in Hs. subst sy.
  apply reattached_rows in Hrow as [Hsame Hrow]. rewrite Hsame in Hd.
  clear Hsame. rewrite lookup_insert in Ha.
  destruct (decide (this = a)) as [<-|Hne].
  - injection Ha as <-. simpl.
    destruct Hrow as [(-> & -> & _)|[Hr Hnot]]; [done|].
    destruct (Hinv _ _ _ _ _ _ Hthis Hsy0 Hd Hr Href) as [Hatt ->].
    exfalso. by apply Hnot.
  - destruct Hrow as [(_ & _ & ->)|[Hr _]]; [simpl in Href; congruence|].
    by eapply Hinv.
Qed.

Lemma SetSynchronizer_all_consistent requests : ∀ w w',
  attachment_consistent w →
  SetSynchronizer_all requests w = Some (tt, w') →
  attachment_consistent w'.
Proof.
  induction requests as [|[this synchronizer] rest IH]; intros w w' Hinv Hrun.
  - cbv [SetSynchronizer_all ret] in Hrun. by simplify_eq.
  - cbn [SetSynchronizer_all] in Hrun.
    apply bind_Some in Hrun as ([] & w1 & Hstep & Hrest).
    pose proof (SetSynchronizer_pre _ _ _ _ Hstep) as (o & Hthis & Hold & Hnew).
    destruct (SetSynchronizer_result _ _ _ _ Hthis Hold Hnew)
      as (w1' & Hstep' & Hobjs & _ & _ & Hsyncs).
    rewrite Hstep in Hstep'. injection Hstep' as <-.
    eapply IH; [|exact Hrest]. by eapply attachment_preserved.
Qed.

(** C6.  An object has one [m_synchronizer] pointer, so it points to at most
    one synchronizer.  After any sequence of [SetSynchronizer] calls, one
    more call on a live object first makes the [RemoveObject] call on the
    current synchronizer (if the object has one and it is not destroyed) and
    only then the [AddObject] call on the new one (if it is not null), and
    nothing else.  Afterwards a synchronizer that is not destroyed and still
    holds a row for the object's storage is the new synchronizer: none
    retains bookkeeping for an object reattached elsewhere. *)
Theorem SetSynchronizer_one_at_a_time
    (requests : list (addr * option sync_ptr))
    (this : addr) (synchronizer : option sync_ptr)
    (w w1 : world) (o : SyncedObject) :
  attachment_consistent w →
  SetSynchronizer_all requests w = Some (tt, w1) →
  objects w1 !! this = Some o →
  valid_synchronizer w1 (m_synchronizer o) →
  valid_synchronizer w1 synchronizer →
  ∃ w2,
    SyncedObject.SetSynchronizer this synchronizer w1 = Some (tt, w2) ∧
    objects w2 = <[this := with_synchronizer synchronizer o]> (objects w1) ∧
    calls w2
    = calls w1 ++ removal w1 this (m_synchronizer o) ++ addition this synchronizer ∧
    attachment_consistent w2 ∧
    (∀ s sy, synchronizers w2 !! s = Some sy →
             Synchronizer.IsDestroyed sy = false →
             Synchronizer.references sy this →
             synchronizer = Some s).
Proof.
  intros Hinv Hrun Hthis Hold Hnew.
  pose proof (SetSynchronizer_all_consistent _ _ _ Hinv Hrun) as Hinv1.
  destruct (SetSynchronizer_result _ _ _ _ Hthis Hold Hnew)
    as (w2 & Hstep & Hobjs & _ & Hcalls & Hsyncs).
  exists w2. split; [done|]. split; [done|]. split; [done|].
  assert (attachment_consistent w2) as Hinv2
    by by eapply attachment_preserved.
  split; [done|].
  intros s sy Hs Hd (id & e & Hrow & Href).
  assert (objects w2 !! this = Some (with_synchronizer synchronizer o)) as Hthis2
    by (rewrite Hobjs; apply lookup_insert_eq).
  by destruct (Hinv2 _ _ _ _ _ _ Hthis2 Hs Hd Hrow Href) as [Hatt _].
Qed.

(** ** Move assignment *)

(** C5, on the code.  Target (storage 1) and source (storage 2) are tracked
    by the same synchronizer 9.  Move assignment gives the target the
    source's identifier 7 and makes one [MoveObject] call, but the source
    still points to synchronizer 9 afterwards.  Destroying the source then
    calls [RemoveObject]: a destruction notice for identifier 7 is scheduled
    and the row of 7, which by then refers to the target, is purged.  With a
    target that is not attached, move assignment copies the identifier and
    does nothing else: no call, the target stays unattached and the source
    attached. *)
Theorem move_assign_leaves_source_attached :
  (∃ w1 w2 sy,
     SyncedObject.move_assign 1 2 Sample.both_attached = Some (tt, w1) ∧
     objects w1 !! 1%positive = Some (Sample.attached 9 7) ∧
     objects w1 !! 2%positive = Some (Sample.attached 9 7) ∧
     calls w1 = [CallMoveObject 9 2 1] ∧
     SyncedObject.dtor 2 w1 = Some (tt, w2) ∧
     calls w2 = [CallMoveObject 9 2 1; CallRemoveObject 9 2] ∧
     objects w2 !! 1%positive = Some (Sample.attached 9 7) ∧
     synchronizers w2 !! 9%positive = Some sy ∧
     Synchronizer.m_notices sy = [7] ∧
     Synchronizer.m_objects sy !! 7 = None) ∧
  (∃ w1,
     SyncedObject.move_assign 1 2 Sample.target_detached = Some (tt, w1) ∧
     objects w1 !! 1%positive = Some (Sample.detached 7) ∧
     objects w1 !! 2%positive = Some (Sample.attached 9 7) ∧
     calls w1 = [] ∧
     synchronizers w1 = synchronizers Sample.target_detached).
Proof.
  split.
  - eexists _, _, _.
    split; [vm_compute; reflexivity|].
    split; [reflexivity|]. split; [reflexivity|]. split; [reflexivity|].
    split; [vm_compute; reflexivity|].
    split; [reflexivity|]. split; [reflexivity|]. split; [reflexivity|].
    split; reflexivity.
  - eexists. split; [vm_compute; reflexivity|].
    split; [reflexivity|]. split; [reflexivity|]. split; reflexivity.
Qed.

(** ** The theorems at sample processes *)

Ltac by_computation := apply (bool_decide_unpack _); vm_compute; exact I.

Lemma Serialize_Deserialize_round_trip_witness :
  Forall well_typed (m_members Sample.object) ∧
  Forall (mutation_fits (schema Sample.object)) Sample.mutations ∧
  schema Sample.mirror = schema Sample.object ∧
  ∃ mirror',
    SyncedObject.Deserialize SyncedType.Full
      ((SyncedObject.Serialize SyncedType.Full
          (SyncedObject.mutate_all Sample.never Sample.mutations Sample.object)).2
       ++ [x2a]) Sample.mirror
    = Some (mirror', [x2a]) ∧
    m_value <$> m_members mirror' = [-128; 65535; -1].
Proof.
  assert (Forall well_typed (m_members Sample.object)) as H1 by by_computation.
  assert (Forall (mutation_fits (schema Sample.object)) Sample.mutations) as H2
    by by_computation.
  assert (schema Sample.mirror = schema Sample.object) as H3 by reflexivity.
  destruct (Serialize_Deserialize_round_trip Sample.never Sample.object
              Sample.mirror Sample.mutations [x2a] H1 H2 H3)
    as [_ (mirror' & Hread & Hvalues & _)].
  split; [exact H1|]. split; [exact H2|]. split; [exact H3|].
  exists mirror'. split; [exact Hread|exact Hvalues].
Defined.

Lemma Delta_twice_is_empty_witness :
  Forall (λ f, SyncedType.GetSynchronizationType f = Dynamic)
    (m_members Sample.dynamic_object) ∧
  (SyncedObject.deltaSerialize
     (SyncedObject.deltaSerialize
        (SyncedObject.mutate_all Sample.never [(2%nat, 10)] Sample.dynamic_object)).1).2
  = ([false; false; false], []).
Proof.
  assert (Forall (λ f, SyncedType.GetSynchronizationType f = Dynamic)
            (m_members Sample.dynamic_object)) as H1
    by (repeat constructor).
  destruct (Delta_twice_is_empty Sample.never Sample.dynamic_object
              [(2%nat, 10)] H1) as (_ & _ & Hmask & Hpayload & _).
  split; [exact H1|].
  exact (eq_trans (surjective_pairing _) (f_equal2 pair Hmask Hpayload)).
Defined.

Lemma identifiers_strictly_increasing_witness :
  0 <= m_last_id (start 0) ∧
  m_last_id (start 0)
  + Z.of_nat (length (constructions
                        [Construct 1; Construct 2; Destroy 1; Construct 3]))
  < id_modulus ∧
  live_ids_allocated (start 0) ∧
  live_ids_distinct (start 0) ∧
  pointers_valid (start 0) ∧
  feasible (dom (objects (start 0)))
    [Construct 1; Construct 2; Destroy 1; Construct 3] = true ∧
  ∃ ids w',
    run true [Construct 1; Construct 2; Destroy 1; Construct 3] (start 0)
    = Some (ids, w') ∧
    StronglySorted Z.lt ids ∧
    Forall (λ id, m_last_id (start 0) < id) ids.
Proof.
  assert (0 <= m_last_id (start 0)) as H1 by done.
  assert (m_last_id (start 0)
          + Z.of_nat (length (constructions
                                [Construct 1; Construct 2; Destroy 1; Construct 3]))
          < id_modulus) as H2 by done.
  assert (live_ids_allocated (start 0)) as H3 by (intros a o Ha; done).
  assert (live_ids_distinct (start 0)) as H4 by (intros a b oa ob Ha; done).
  assert (pointers_valid (start 0)) as H5 by (intros a o Ha; done).
  assert (feasible (dom (objects (start 0)))
            [Construct 1; Construct 2; Destroy 1; Construct 3] = true) as H6
    by (vm_compute; reflexivity).
  destruct (identifiers_strictly_increasing true _ _ H1 H2 H3 H4 H5 H6)
    as (ids & w' & Hrun & Hsorted & Habove & _).
  split; [exact H1|]. split; [exact H2|]. split; [exact H3|].
  split; [exact H4|]. split; [exact H5|]. split; [exact H6|].
  exists ids, w'. split; [exact Hrun|]. split; [exact Hsorted|exact Habove].
Defined.

Lemma NewID_increments_and_wraps_witness :
  0 <= m_last_id (start 41) < id_modulus ∧
  ∃ id,
    SyncedObject.NewID (start 41) = Some (id, with_last_id id (start 41)) ∧
    0 <= id < id_modulus ∧
    (m_last_id (start 41) < id_max → id = m_last_id (start 41) + 1) ∧
    (m_last_id (start 41) = id_max → id = 0).
Proof.
  assert (0 <= m_last_id (start 41) < id_modulus) as H1 by done.
  split; [exact H1|]. exact (NewID_increments_and_wraps (start 41) H1).
Defined.

Lemma move_ctor_relocates_witness :
  objects Sample.one_attached !! 2%positive = Some (Sample.attached 9 7) ∧
  objects Sample.one_attached !! 1%positive = None ∧
  ∃ w' sy',
    SyncedObject.move_ctor false 1 2 Sample.one_attached = Some (tt, w') ∧
    objects w'
    = {[ 1%positive := Sample.attached 9 7; 2%positive := Sample.detached 7 ]} ∧
    calls w' = [CallMoveObject 9 2 1] ∧
    synchronizers w' !! 9%positive = Some sy' ∧
    Synchronizer.m_objects sy'
    = {[ 7 := Synchronizer.mkTracked 1 Synchronizer.Live ]} ∧
    Synchronizer.m_notices sy' = [].
Proof.
  assert (objects Sample.one_attached !! 2%positive = Some (Sample.attached 9 7))
    as H1 by reflexivity.
  assert (objects Sample.one_attached !! 1%positive = None) as H2 by reflexivity.
  assert (m_synchronizer (Sample.attached 9 7) = Some 9%positive) as H3
    by reflexivity.
  assert (synchronizers Sample.one_attached !! 9%positive
          = Some (Sample.synchronizer
                    {[ 7 := Synchronizer.mkTracked 2 Synchronizer.Live ]} []))
    as H4 by reflexivity.
  destruct (move_ctor_relocates false 1 2 _ _ _ _ H1 H2 H3 H4)
    as (w' & sy' & Hrun & Hobjs & _ & Hcalls & Hsyncs & Hsy' & _ & Hnotices & _).
  split; [exact H1|]. split; [exact H2|]. exists w', sy'.
  split; [exact Hrun|]. split; [rewrite Hobjs; vm_compute; reflexivity|].
  split; [exact Hcalls|].
  split; [rewrite Hsyncs; apply lookup_insert_eq|].
  split; [rewrite Hsy'; vm_compute; reflexivity|exact Hnotices].
Defined.

Lemma SetSynchronizer_one_at_a_time_witness :
  attachment_consistent Sample.two_synchronizers ∧
  SetSynchronizer_all [(1%positive, Some 9%positive)] Sample.two_synchronizers
  = Some (tt, Sample.after_first_attach) ∧
  ∃ w2,
    SyncedObject.SetSynchronizer 1 (Some 10%positive) Sample.after_first_attach
    = Some (tt, w2) ∧
    calls w2 = [CallAddObject 9 1; CallRemoveObject 9 1; CallAddObject 10 1] ∧
    attachment_consistent w2.
Proof.
  assert (attachment_consistent Sample.two_synchronizers) as H1.
  { intros a o s sy id e Ha Hs Hd Hrow Href.
    unfold Sample.two_synchronizers in Hs. simpl in Hs.
    apply lookup_insert_Some in Hs as [[_ <-]|[_ Hs]].
    - simpl in Hrow. by rewrite lookup_empty in Hrow.
    - apply lookup_singleton_Some in Hs as [_ <-].
      simpl in Hrow. by rewrite lookup_empty in Hrow. }
  assert (SetSynchronizer_all [(1%positive, Some 9%positive)]
            Sample.two_synchronizers
          = Some (tt, Sample.after_first_attach)) as H2
    by (vm_compute; reflexivity).
  assert (objects Sample.after_first_attach !! 1%positive
          = Some (Sample.attached 9 3)) as H3 by reflexivity.
  assert (valid_synchronizer Sample.after_first_attach
            (m_synchronizer (Sample.attached 9 3))) as H4 by by_computation.
  assert (valid_synchronizer Sample.after_first_attach (Some 10%positive)) as H5
    by by_computation.
  destruct (SetSynchronizer_one_at_a_time _ 1 (Some 10%positive) _ _ _
              H1 H2 H3 H4 H5) as (w2 & Hrun & _ & Hcalls & Hinv & _).
  split; [exact H1|]. split; [exact H2|]. exists w2.
  split; [exact Hrun|]. split; [exact Hcalls|exact Hinv].
Defined.

Lemma dtor_deregisters_witness :
  objects Sample.one_attached !! 2%positive = Some (Sample.attached 9 7) ∧
  valid_synchronizer Sample.one_attached (m_synchronizer (Sample.attached 9 7)) ∧
  ∃ w',
    SyncedObject.dtor 2 Sample.one_attached = Some (tt, w') ∧
    objects w' = ∅ ∧
    calls w' = [CallRemoveObject 9 2].
Proof.
  assert (objects Sample.one_attached !! 2%positive = Some (Sample.attached 9 7))
    as H1 by reflexivity.
  assert (valid_synchronizer Sample.one_attached
            (m_synchronizer (Sample.attached 9 7))) as H2 by by_computation.
  destruct (dtor_deregisters 2 _ _ H1 H2) as (w' & Hrun & Hobjs & _ & Hcalls & _).
  split; [exact H1|]. split; [exact H2|]. exists w'.
  split; [exact Hrun|]. split; [rewrite Hobjs; vm_compute; reflexivity|exact Hcalls].
Defined.

Lemma NotifyChanged_sets_flag_and_updates_witness :
  objects Sample.one_attached !! 2%positive = Some (Sample.attached 9 7) ∧
  valid_synchronizer Sample.one_attached (m_synchronizer (Sample.attached 9 7)) ∧
  ∃ w',
    SyncedObject.NotifyChanged 2 Sample.one_attached = Some (tt, w') ∧
    m_changed (Sample.attached 9 7) = false ∧
    objects w' !! 2%positive
    = Some {| m_synchronizer := Some 9%positive; m_members := []; m_id := 7;
              m_changed := true |} ∧
    calls w' = [CallUpdateObject 9 2].
Proof.
  assert (objects Sample.one_attached !! 2%positive = Some (Sample.attached 9 7))
    as H1 by reflexivity.
  assert (valid_synchronizer Sample.one_attached
            (m_synchronizer (Sample.attached 9 7))) as H2 by by_computation.
  destruct (NotifyChanged_sets_flag_and_updates 2 _ _ H1 H2)
    as (w' & Hrun & Hobjs & _ & _ & _ & Hcalls & _).
  split; [exact H1|]. split; [exact H2|]. exists w'.
  split; [exact Hrun|]. split; [reflexivity|].
  split; [rewrite Hobjs; apply lookup_insert_eq|exact Hcalls].
Defined.

(** ** The model at work *)

Example encode_Int8 : SyncedType.encode Int8 (-3) = [xfd].
Proof. reflexivity. Qed.

Example encode_Uint16 : SyncedType.encode Uint16 513 = [x01; x02].
Proof. reflexivity. Qed.

Example decode_Int64 :
  SyncedType.decode Int64 [xff; xff; xff; xff; xff; xff; xff; xff] = -1.
Proof. reflexivity. Qed.

Example Serialize_Full_sample :
  (SyncedObject.Serialize SyncedType.Full Sample.object).2
  = [xfd; x01; x02; xff; xff; xff; xff; xff; xff; xff; xff].
Proof. reflexivity. Qed.

Example Deserialize_underrun :
  SyncedObject.Deserialize SyncedType.Full [xfd; x01] Sample.mirror = None.
Proof. reflexivity. Qed.

Example deltaSerialize_sample :
  (SyncedObject.deltaSerialize Sample.dynamic_object).2
  = ([true; false; false], [xc8]).
Proof. reflexivity. Qed.

Example run_sample :
  run true [Construct 1; Construct 2; Destroy 1; Construct 3] (start 0)
  = Some ([1; 2; 3],
          {| m_last_id := 3;
             objects := {[ 2%positive := SyncedObject.init 2 true;
                           3%positive := SyncedObject.init 3 true ]};
             synchronizers := ∅;
             calls := [] |}).
Proof. vm_compute. reflexivity. Qed.

Example SetSynchronizer_sample :
  SyncedObject.SetSynchronizer 1 (Some 9%positive) Sample.two_synchronizers
  = Some (tt, Sample.after_first_attach).
Proof. vm_compute. reflexivity. Qed.

(** * HTTP messages *)

Lemma string_app_assoc (a b c : string) : (a +:+ b) +:+ c = a +:+ (b +:+ c).
Proof.
  induction a as [|x a IH]; [done|].
  change (String x ((a +:+ b) +:+ c) = String x (a +:+ (b +:+ c))).
  by rewrite IH.
Qed.

Lemma string_app_nil_r (a : string) : a +:+ EmptyString = a.
Proof.
  induction a as [|x a IH]; [done|].
  change (String x (a +:+ EmptyString) = String x a). by rewrite IH.
Qed.

Lemma foldl_add_header_line (str : string) (l : list (string * string)) :
  foldl HTTPMessage.add_header_line str l = str +:+ join (header_line <$> l).
Proof.
  revert str; induction l as [|h l IH]; intros str.
  - simpl. by rewrite string_app_nil_r.
  - cbn [foldl fmap list_fmap join foldr]. rewrite IH.
    unfold HTTPMessage.add_header_line. fold (header_line h).
    by rewrite string_app_assoc.
Qed.

(** X1.  Writing a header field and reading a field back: the field written reads
    as the value written, whatever it held; every other field, the body and
    the two flags are as before.  A field never written reads as the empty
    string. *)
Theorem SetHeaderValue_then_GetHeaderValue
    (field value field_name : string) (m : HTTPMessage) :
  HTTPMessage.GetHeaderValue field_name
    (HTTPMessage.SetHeaderValue field value m)
  = (if decide (field = field_name) then value
     else HTTPMessage.GetHeaderValue field_name m) ∧
  HTTPMessage.GetBody (HTTPMessage.SetHeaderValue field value m)
  = HTTPMessage.GetBody m ∧
  HTTPMessage.IsHeaderComplete (HTTPMessage.SetHeaderValue field value m)
  = HTTPMessage.IsHeaderComplete m ∧
  HTTPMessage.IsBodyComplete (HTTPMessage.SetHeaderValue field value m)
  = HTTPMessage.IsBodyComplete m ∧
  (m_header m !! field_name = None →
   HTTPMessage.GetHeaderValue field_name m = EmptyString).
Proof.
  unfold HTTPMessage.GetHeaderValue, HTTPMessage.SetHeaderValue. simpl.
  rewrite lookup_insert. split; [by case_decide|].
  repeat split. by intros ->.
Qed.

(** X2.  [GetHeaderFields] lists the fields of the header, each once, in the order
    the container is visited: a field is listed exactly if it was set, also
    when it was set to the empty string. *)
Theorem GetHeaderFields_lists_fields (order : header_order) (r : HTTPResponse) :
  visits_each_once order →
  HTTPResponse.GetHeaderFields order r
  = (order (m_header (response_message r))).*1 ∧
  NoDup (HTTPResponse.GetHeaderFields order r) ∧
  ∀ field, field ∈ HTTPResponse.GetHeaderFields order r
           ↔ is_Some (m_header (response_message r) !! field).
Proof.
  intros Horder.
  assert (∀ l acc, foldl (λ fields (f : string * string), fields ++ [f.1]) acc l
                   = acc ++ l.*1) as Hloop.
  { induction l as [|h l IH]; intros acc; simpl; [by rewrite app_nil_r|].
    by rewrite IH, <- app_assoc. }
  unfold HTTPResponse.GetHeaderFields. rewrite Hloop. simpl.
  split; [done|]. pose proof (Horder (m_header (response_message r))) as Hperm.
  split.
  - rewrite Hperm. apply NoDup_fst_map_to_list.
  - intros field. rewrite list_elem_of_fmap. split.
    + intros ([f v] & -> & Hin). rewrite Hperm in Hin.
      apply elem_of_map_to_list in Hin. by eexists.
    + intros [v Hv]. exists (field, v). split; [done|].
      rewrite Hperm. by apply elem_of_map_to_list.
Qed.

Lemma HTTPRequest_eqb_true (x y : HTTPRequest) :
  HTTPRequest.eqb x y = true
  ↔ m_method x = m_method y ∧ m_uri x = m_uri y ∧
    m_header (request_message x) = m_header (request_message y) ∧
    m_body (request_message x) = m_body (request_message y).
Proof.
  unfold HTTPRequest.eqb, HTTPMessage.eqb, HTTPRequest.GetMethod,
    HTTPRequest.GetURI, HTTPMessage.GetBody.
  rewrite !andb_true_iff, !bool_decide_eq_true. tauto.
Qed.

Lemma HTTPRequest_eqb_refl (x : HTTPRequest) : HTTPRequest.eqb x x = true.
Proof. by apply HTTPRequest_eqb_true. Qed.

Lemma HTTPRequest_eqb_sym (x y : HTTPRequest) :
  HTTPRequest.eqb x y = true → HTTPRequest.eqb y x = true.
Proof.
  intros (? & ? & ? & ?)%HTTPRequest_eqb_true. by apply HTTPRequest_eqb_true.
Qed.

Lemma HTTPRequest_eqb_trans (x y z : HTTPRequest) :
  HTTPRequest.eqb x y = true → HTTPRequest.eqb y z = true →
  HTTPRequest.eqb x z = true.
Proof.
  intros (? & ? & ? & ?)%HTTPRequest_eqb_true (? & ? & ? & ?)%HTTPRequest_eqb_true.
  apply HTTPRequest_eqb_true. repeat split; congruence.
Qed.

(** X3.  [operator==] on requests compares method, URI, header and body, and
    nothing else: the two completion flags play no part.  It is an
    equivalence. *)
Theorem HTTPRequest_eqb_compares (a b c : HTTPRequest) :
  (HTTPRequest.eqb a b = true
   ↔ m_method a = m_method b ∧ m_uri a = m_uri b ∧
     m_header (request_message a) = m_header (request_message b) ∧
     m_body (request_message a) = m_body (request_message b)) ∧
  HTTPRequest.eqb a a = true ∧
  HTTPRequest.eqb a b = HTTPRequest.eqb b a ∧
  (HTTPRequest.eqb a b = true → HTTPRequest.eqb b c = true →
   HTTPRequest.eqb a c = true) ∧
  HTTPRequest.eqb
    (HTTPRequest.on_message HTTPMessage.SetHeaderComplete a)
    (HTTPRequest.on_message HTTPMessage.SetBodyComplete a) = true.
Proof.
  split; [apply HTTPRequest_eqb_true|].
  split; [apply HTTPRequest_eqb_refl|]. split; [|split].
  - destruct (HTTPRequest.eqb a b) eqn:Hab, (HTTPRequest.eqb b a) eqn:Hba;
      try done.
    + apply HTTPRequest_eqb_sym in Hab. congruence.
    + apply HTTPRequest_eqb_sym in Hba. congruence.
  - apply HTTPRequest_eqb_trans.
  - by apply HTTPRequest_eqb_true.
Qed.

Lemma HTTPRequest_ToString_text (order : header_order) (a : HTTPRequest) :
  HTTPRequest.ToString order a
  = m_method a +:+ " " +:+ m_uri a +:+ " HTTP/1.1" +:+ CRLF
    +:+ join (header_line <$> order (m_header (request_message a)))
    +:+ CRLF +:+ m_body (request_message a).
Proof.
  unfold HTTPRequest.ToString, HTTPMessage.ToString.
  rewrite foldl_add_header_line. cbn [String.append].
  by rewrite !string_app_assoc.
Qed.

(** X4.  The text of a request is its request line, one line per header as
    the request's container is visited, an empty line, and the body.  For
    two requests that are equal under [operator==], each with a container
    that visits every header once in an order of its own, the two texts have
    the same request line and the same body, and their header lines are the
    same up to their order; the texts are equal when the two containers are
    visited in the same order. *)
Theorem ToString_of_equal_requests (order_a order_b : header_order)
    (a b : HTTPRequest) :
  visits_each_once order_a →
  visits_each_once order_b →
  HTTPRequest.eqb a b = true →
  HTTPRequest.ToString order_a a
  = m_method a +:+ " " +:+ m_uri a +:+ " HTTP/1.1" +:+ CRLF
    +:+ join (header_line <$> order_a (m_header (request_message a)))
    +:+ CRLF +:+ m_body (request_message a) ∧
  HTTPRequest.ToString order_b b
  = m_method a +:+ " " +:+ m_uri a +:+ " HTTP/1.1" +:+ CRLF
    +:+ join (header_line <$> order_b (m_header (request_message b)))
    +:+ CRLF +:+ m_body (request_message a) ∧
  header_line <$> order_a (m_header (request_message a))
  ≡ₚ header_line <$> order_b (m_header (request_message b)) ∧
  (order_a (m_header (request_message a)) = order_b (m_header (request_message b)) →
   HTTPRequest.ToString order_a a = HTTPRequest.ToString order_b b).
Proof.
  intros Ha Hb (Hm & Hu & Hh & Hbody)%HTTPRequest_eqb_true.
  rewrite !HTTPRequest_ToString_text, <- Hm, <- Hu, <- Hbody.
  split; [done|]. split; [done|]. split.
  - by rewrite (Ha _), (Hb _), Hh.
  - by intros ->.
Qed.

(** X5.  No member function of [HTTPResponse] takes a completion flag back: over
    any sequence of calls a flag that is set stays set, so a response that
    is complete stays complete. *)
Theorem completion_is_kept (r : HTTPResponse) (calls : list setter) :
  let r' := foldl apply_setter r calls in
  (HTTPMessage.IsHeaderComplete (response_message r) = true →
   HTTPMessage.IsHeaderComplete (response_message r') = true) ∧
  (HTTPMessage.IsBodyComplete (response_message r) = true →
   HTTPMessage.IsBodyComplete (response_message r') = true) ∧
  (HTTPResponse.IsComplete r = true → HTTPResponse.IsComplete r' = true).
Proof.
  simpl.
  assert (∀ r0,
    (HTTPMessage.IsHeaderComplete (response_message r0) = true →
     HTTPMessage.IsHeaderComplete
       (response_message (foldl apply_setter r0 calls)) = true) ∧
    (HTTPMessage.IsBodyComplete (response_message r0) = true →
     HTTPMessage.IsBodyComplete
       (response_message (foldl apply_setter r0 calls)) = true)) as Hflags.
  { induction calls as [|s calls IH]; intros r0; [done|].
    simpl. destruct (IH (apply_setter r0 s)) as [Hh Hb].
    split; intros H0; [apply Hh | apply Hb]; by destruct s. }
  destruct (Hflags r) as [Hh Hb]. split; [done|]. split; [done|].
  unfold HTTPResponse.IsComplete. rewrite !andb_true_iff. intros [? ?]. auto.
Qed.

(** * The client pipeline *)

Section Pipeline.

Import HTTPClientPipeline.

Implicit Types (p : HTTPClientPipeline.t) (l : list (HTTPRequest * HTTPResponse)).

(** The search loop finds the first element whose request is equal. *)
Lemma find_Some request l i e :
  find request l = Some (i, e)
  ↔ l !! i = Some e ∧ HTTPRequest.eqb e.1 request = true ∧
    ∀ j e', l !! j = Some e' → (j < i)%nat → HTTPRequest.eqb e'.1 request ≠ true.
Proof.
  unfold find.
  apply (list_find_Some (λ x, HTTPRequest.eqb x.1 request = true)).
Qed.


(** Changing responses does not move what the search loop finds. *)
Lemma find_alter request (g : HTTPRequest * HTTPResponse → HTTPRequest * HTTPResponse)
    i l :
  (∀ e, (g e).1 = e.1) →
  find request (alter g i l)
  = (λ x, (x.1, if decide (x.1 = i) then g x.2 else x.2)) <$> find request l.
Proof.
  intros Hg. unfold find. revert i.
  induction l as [|x l IH]; intros i; [done|].
  destruct i as [|i]; cbn [alter list_alter list_find].
  - rewrite Hg. case_decide; [done|].
    destruct (list_find _ l) as [[j y]|]; [|done]. done.
  - case_decide; [done|]. rewrite IH.
    destruct (list_find _ l) as [[j y]|]; [|done]. simpl.
    f_equal. f_equal. by repeat case_decide; simplify_eq/=; try lia.
Qed.

Lemma find_on_response request i f p :
  find request (m_pipeline (on_response i f p))
  = (λ x, (x.1, if decide (x.1 = i) then (x.2.1, f x.2.2) else x.2))
      <$> find request (m_pipeline p).
Proof. unfold on_response. simpl. by apply find_alter. Qed.

Lemma on_response_twice i f g p :
  on_response i g (on_response i f p) = on_response i (g ∘ f) p.
Proof.
  unfold on_response, with_pipeline. simpl. f_equal.
  rewrite list_alter_alter_eq. by apply list_alter_ext.
Qed.

Lemma on_response_ext i f g p :
  (∀ r, f r = g r) → on_response i f p = on_response i g p.
Proof.
  intros Hfg. unfold on_response.
  rewrite (list_alter_ext _ (λ e, (e.1, g e.2)) _ (m_pipeline p) i); [done| |done].
  intros [a r] _. simpl. by rewrite Hfg.
Qed.

Lemma on_current_twice f g p :
  on_current g (on_current f p).2
  = ((on_current f p).1, (on_current (g ∘ f) p).2).
Proof.
  unfold on_current.
  destruct (find (m_current_request p) (m_pipeline p)) as [[i e]|] eqn:Hfind.
  - cbn [fst snd]. change (m_current_request (on_response i f p))
      with (m_current_request p).
    rewrite find_on_response, Hfind. cbn [fmap option_fmap option_map fst snd].
    by rewrite on_response_twice.
  - cbn [fst snd]. by rewrite Hfind.
Qed.

End Pipeline.

Section Chunks.

Import HTTPClientPipeline.

Lemma on_current_code f g (p : HTTPClientPipeline.t) :
  (on_current f p).1 = (on_current g p).1.
Proof.
  unfold on_current.
  by destruct (find (m_current_request p) (m_pipeline p)) as [[i e]|].
Qed.

Lemma on_current_ext f g (p : HTTPClientPipeline.t) :
  (∀ r, f r = g r) → on_current f p = on_current g p.
Proof.
  intros Hfg. unfold on_current.
  destruct (find (m_current_request p) (m_pipeline p)) as [[i e]|]; [|done].
  by rewrite (on_response_ext i f g).
Qed.

Lemma on_current_joined f g h (p : HTTPClientPipeline.t) :
  (∀ r, g (f r) = h r) →
  on_current g (on_current f p).2 = on_current h p.
Proof.
  intros Hh. rewrite on_current_twice.
  rewrite (on_current_code f h), (on_current_ext (g ∘ f) h) by done.
  by destruct (on_current h p).
Qed.

(** X6.  It makes no difference whether the parser hands a status, a header
    field, a header value or a body to its callback in one piece or in two:
    the pipeline ends up the same, and so does the value returned. *)
Theorem pieces_make_no_difference (a b : string) (p : HTTPClientPipeline.t) :
  OnStatus b (OnStatus a p).2 = OnStatus (a +:+ b) p ∧
  OnHeaderField b (OnHeaderField a p).2 = OnHeaderField (a +:+ b) p ∧
  OnHeaderValue b (OnHeaderValue a p).2 = OnHeaderValue (a +:+ b) p ∧
  OnBody b (OnBody a p).2 = OnBody (a +:+ b) p.
Proof.
  split; [|split; [|split]].
  - apply (on_current_joined _ _ _ p). intros r.
    unfold HTTPResponse.SetStatus, HTTPResponse.GetStatus. simpl.
    by rewrite string_app_assoc.
  - unfold OnHeaderField. destruct p as [? ? ? ? ? ? last []]; simpl.
    + done.
    + unfold with_last_header_field. simpl. by rewrite string_app_assoc.
  - unfold OnHeaderValue.
    set (p1 := with_header_field_complete true p).
    fold (on_current
            (λ response,
               HTTPResponse.on_message
                 (HTTPMessage.SetHeaderValue (m_last_header_field p1)
                    (HTTPResponse.GetHeaderValue (m_last_header_field p1) response
                     +:+ a)) response) p1).
    fold (on_current
            (λ response,
               HTTPResponse.on_message
                 (HTTPMessage.SetHeaderValue (m_last_header_field p1)
                    (HTTPResponse.GetHeaderValue (m_last_header_field p1) response
                     +:+ (a +:+ b))) response) p1).
    set (fa := λ response, HTTPResponse.on_message _ response).
    assert (with_header_field_complete true (on_current fa p1).2
            = (on_current fa p1).2) as ->.
    { unfold on_current.
      by destruct (find (m_current_request p1) (m_pipeline p1)) as [[i e]|]. }
    assert (m_last_header_field (on_current fa p1).2 = m_last_header_field p1)
      as ->.
    { unfold on_current.
      by destruct (find (m_current_request p1) (m_pipeline p1)) as [[i e]|]. }
    match goal with
    | |- match find ?c ?l with _ => _ end = _ =>
        fold (on_current
                (λ response,
                   HTTPResponse.on_message
                     (HTTPMessage.SetHeaderValue (m_last_header_field p1)
                        (HTTPResponse.GetHeaderValue (m_last_header_field p1)
                           response +:+ b)) response) (on_current fa p1).2)
    end.
    apply on_current_joined. intros r. unfold fa.
    unfold HTTPResponse.on_message, HTTPResponse.GetHeaderValue,
      HTTPMessage.SetHeaderValue, HTTPMessage.GetHeaderValue. simpl.
    rewrite lookup_insert_eq, insert_insert_eq. by rewrite string_app_assoc.
  - apply (on_current_joined _ _ _ p). intros r.
    unfold HTTPResponse.on_message, HTTPResponse.GetBody,
      HTTPMessage.SetBody, HTTPMessage.GetBody. simpl.
    by rewrite string_app_assoc.
Qed.

End Chunks.

(** * Reconnecting *)

Section Reconnecting.

Import HTTPClientPipeline.

Variable order : header_order.

Lemma resend_loop (l : list (HTTPRequest * HTTPResponse)) :
  ∀ (current_set : bool) (p : HTTPClientPipeline.t),
    foldl (resend order) (current_set, p) l
    = (current_set || negb (bool_decide (pending l = [])),
       with_current_request
         (if current_set then m_current_request p
          else match pending l with
               | [] => m_current_request p
               | e :: _ => e.1
               end)
         (with_effects
            (m_effects p
             ++ ((λ e, SocketSend (HTTPRequest.ToString order e.1)) <$> pending l))
            p)).
Proof.
  induction l as [|e l IH]; intros current_set p.
  - cbn [foldl pending filter list_filter fmap list_fmap].
    rewrite app_nil_r, orb_false_r. destruct p. by destruct current_set.
  - cbn [foldl]. unfold pending. rewrite filter_cons. fold (pending l).
    unfold resend at 2. cbn [fst snd].
    destruct (HTTPResponse.IsComplete e.2) eqn:Hcomplete; cbn [negb].
    + rewrite decide_False by done. apply IH.
    + rewrite decide_True by done.
      destruct current_set; cbn [negb fst snd]; rewrite IH; cbn [orb];
        rewrite fmap_cons; destruct p; unfold with_current_request, with_effects,
          perform; simpl; by rewrite <- app_assoc.
Qed.


Lemma Reconnect_pipeline (p : HTTPClientPipeline.t) :
  m_pipeline (Reconnect order p) = m_pipeline p.
Proof.
  unfold Reconnect. cbv zeta. rewrite resend_loop.
  destruct p as [? secure ? ? ? ? ? ? ? ?]. by destruct secure.
Qed.

End Reconnecting.

(** * The parser callbacks *)

Section Callbacks.

Import HTTPClientPipeline.

Variables (order : header_order) (throws : string → bool).

Lemma on_response_lookup i f (p : HTTPClientPipeline.t) j :
  m_pipeline (on_response i f p) !! j
  = if decide (j = i) then (λ e, (e.1, f e.2)) <$> m_pipeline p !! j
    else m_pipeline p !! j.
Proof.
  unfold on_response. simpl. rewrite list_lookup_alter.
  destruct (decide (i = j)), (decide (j = i)); by simplify_eq.
Qed.


Lemma on_current_pipeline f (p : HTTPClientPipeline.t) :
  m_pipeline (on_current f p).2
  = match find (m_current_request p) (m_pipeline p) with
    | Some (i, _) => alter (λ e, (e.1, f e.2)) i (m_pipeline p)
    | None => m_pipeline p
    end.
Proof.
  unfold on_current.
  by destruct (find (m_current_request p) (m_pipeline p)) as [[i e]|].
Qed.

(** Every callback leaves the pipeline as it is or replaces the response of
    the element found for the current request. *)
Lemma deliver_pipeline e (p : HTTPClientPipeline.t) code p' :
  deliver order throws e p = Some (code, p') →
  ∃ f, m_pipeline p' = m_pipeline (on_current f p).2.
Proof.
  destruct e as [data|data|data| |data|]; cbn [deliver].
  - intros [= Hresult]. replace p' with (OnStatus data p).2 by (by rewrite Hresult).
    by exists (λ response,
              HTTPResponse.SetStatus (HTTPResponse.GetStatus response +:+ data)
                response).
  - intros [= <- <-].
    exists id. rewrite on_current_pipeline.
    destruct (find _ _) as [[i e]|].
    + rewrite (list_alter_ext _ id _ (m_pipeline p) i); [|by intros []|done].
      rewrite list_alter_id by done. by destruct p as [? ? ? ? ? ? ? []].
    + by destruct p as [? ? ? ? ? ? ? []].
  - intros [= Hresult].
    replace p' with (OnHeaderValue data p).2 by (by rewrite Hresult).
    unfold OnHeaderValue. cbv zeta.
    change (m_current_request (with_header_field_complete true p))
      with (m_current_request p).
    change (m_pipeline (with_header_field_complete true p)) with (m_pipeline p).
    change (m_last_header_field (with_header_field_complete true p))
      with (m_last_header_field p).
    exists (λ response,
              HTTPResponse.on_message
                (HTTPMessage.SetHeaderValue (m_last_header_field p)
                   (HTTPResponse.GetHeaderValue (m_last_header_field p) response
                    +:+ data)) response).
    rewrite on_current_pipeline.
    by destruct (find _ _) as [[i e]|].
  - unfold OnHeadersComplete. intros Hresult.
    exists (HTTPResponse.on_message HTTPMessage.SetHeaderComplete).
    rewrite on_current_pipeline.
    destruct (find _ _) as [[i e]|]; [|by simplify_eq].
    cbv zeta in Hresult.
    destruct (negb _); [destruct (throws _)|]; by simplify_eq.
  - intros [= Hresult]. replace p' with (OnBody data p).2 by (by rewrite Hresult).
    by exists (λ response,
              let body := HTTPResponse.GetBody response in
              let body := body +:+ data in
              HTTPResponse.on_message (HTTPMessage.SetBody body) response).
  - unfold OnMessageComplete.
    intros [= Hresult].
    exists (HTTPResponse.on_message HTTPMessage.SetBodyComplete).
    rewrite on_current_pipeline.
    destruct (find _ _) as [[i e]|]; [|by simplify_eq].
    cbv zeta in Hresult.
    destruct (bool_decide _).
    + destruct (m_pipeline (Reconnect _ _) !! S i); simplify_eq;
        cbn [m_pipeline with_current_request]; by rewrite Reconnect_pipeline.
    + by destruct (m_pipeline (on_response _ _ _) !! S i); simplify_eq.
Qed.




(** X9.  When two elements of the pipeline hold equal requests, no sequence of
    parser callbacks reaches the later one: whatever arrives, its response
    stays as it is. *)
Theorem later_equal_request_is_never_reached events :
  ∀ (p p' : HTTPClientPipeline.t) i j a b,
    m_pipeline p !! i = Some a → m_pipeline p !! j = Some b → (i < j)%nat →
    HTTPRequest.eqb a.1 b.1 = true →
    deliver_all order throws events p = Some p' →
    m_pipeline p' !! j = Some b.
Proof.
  induction events as [|e events IH]; intros p p' i j a b Hi Hj Hij Hab Hall.
  - by simplify_eq/=.
  - cbn [deliver_all] in Hall.
    destruct (deliver order throws e p) as [[code p1]|] eqn:He; [|done].
    destruct (bool_decide (code = 0)); [|done].
    destruct (deliver_pipeline _ _ _ _ He) as [f Hf].
    rewrite on_current_pipeline in Hf.
    assert (∃ a', m_pipeline p1 !! i = Some a' ∧ a'.1 = a.1) as (a' & Hi' & Ha').
    { rewrite Hf. destruct (find _ _) as [[k x]|]; [|by eexists].
      rewrite list_lookup_alter. case_decide; simplify_eq; rewrite Hi; by eexists. }
    apply (IH p1 p' i j a' b); [done| |done|by rewrite Ha'|done].
    rewrite Hf. destruct (find _ _) as [[k x]|] eqn:Hfind; [|done].
    rewrite list_lookup_alter_ne; [done|]. intros ->.
    apply find_Some in Hfind as (Hx & Hcurrent & Hfirst).
    assert (x = b) as -> by congruence.
    apply (Hfirst i a Hi Hij). by apply (HTTPRequest_eqb_trans _ b.1).
Qed.

(** X10.  [OnMessageComplete] marks the body of the response found complete and
    moves on: the current request becomes the request of the element that
    follows in the pipeline, and a request as [HTTPRequest{}] makes it when
    none follows, whether or not the connection was closed and opened
    again.  When no two requests of the pipeline are equal, the callbacks
    that follow find that next element. *)
Theorem OnMessageComplete_moves_on (p : HTTPClientPipeline.t) i e :
  find (m_current_request p) (m_pipeline p) = Some (i, e) →
  let r := OnMessageComplete order p in
  r.1 = 0 ∧
  m_pipeline r.2
  = alter (λ x, (x.1, HTTPResponse.on_message HTTPMessage.SetBodyComplete x.2))
      i (m_pipeline p) ∧
  m_current_request r.2
  = match m_pipeline p !! S i with
    | Some next => next.1
    | None => HTTPRequest.ctor
    end ∧
  (distinct_requests (m_pipeline p) →
   ∀ next, m_pipeline p !! S i = Some next →
           find (m_current_request r.2) (m_pipeline r.2) = Some (S i, next)).
Proof.
  intros Hfind. cbv zeta. unfold OnMessageComplete. rewrite Hfind. cbv zeta.
  set (q := on_response i _ p).
  set (q' := if bool_decide _ then Reconnect order q else q).
  assert (m_pipeline q' = m_pipeline q) as Hq'.
  { unfold q'. destruct (bool_decide _); [apply Reconnect_pipeline|done]. }
  assert (m_pipeline q' !! S i = m_pipeline p !! S i) as Hnext.
  { rewrite Hq'. unfold q. rewrite on_response_lookup.
    rewrite decide_False by lia. done. }
  rewrite Hnext.
  assert (∀ c, m_pipeline (with_current_request c q')
               = alter (λ x, (x.1,
                              HTTPResponse.on_message HTTPMessage.SetBodyComplete
                                x.2)) i (m_pipeline p)) as Hpipeline.
  { intros c. cbn [m_pipeline with_current_request]. by rewrite Hq'. }
  destruct (m_pipeline p !! S i) as [next|] eqn:Hlookup; cbn [fst snd];
    (split; [done|]); (split; [apply Hpipeline|]); (split; [done|]);
    intros Hdistinct next' Hnext'; [|done].
  simplify_eq. rewrite Hpipeline. cbn [m_current_request with_current_request].
  apply find_Some. split; [|split].
  - rewrite list_lookup_alter_ne by lia. done.
  - apply HTTPRequest_eqb_refl.
  - intros j x Hx Hj Heq. rewrite list_lookup_alter in Hx.
    assert (∃ y, m_pipeline p !! j = Some y ∧ y.1 = x.1) as (y & Hy & Hyx).
    { case_decide; [subst j|by eexists].
      destruct (m_pipeline p !! i) as [y|]; [|done]. simplify_eq/=. by eexists. }
    rewrite <- Hyx in Heq. pose proof (Hdistinct _ _ _ _ Hy Hlookup Heq). lia.
Qed.


Lemma SendRequest_pipeline blank request now (p : HTTPClientPipeline.t) :
  m_pipeline (SendRequest order blank request now p)
  = m_pipeline p ++ [(request, blank)].
Proof. unfold SendRequest. by destruct (m_pipeline p) eqn:E; simpl; rewrite E. Qed.

Lemma SendRequest_effects blank request now (p : HTTPClientPipeline.t) :
  m_effects (SendRequest order blank request now p)
  = m_effects p ++ [SocketSend (HTTPRequest.ToString order request)].
Proof. unfold SendRequest. by destruct (m_pipeline p). Qed.

Lemma SendRequest_current blank request now (p : HTTPClientPipeline.t) :
  m_current_request (SendRequest order blank request now p)
  = match m_pipeline p with
    | [] => request
    | _ :: _ => m_current_request p
    end.
Proof. unfold SendRequest. by destruct (m_pipeline p). Qed.

Lemma SendRequest_activity blank request now (p : HTTPClientPipeline.t) :
  m_last_activity (SendRequest order blank request now p) = now.
Proof. unfold SendRequest. by destruct (m_pipeline p). Qed.

(** X12.  Requests sent one after the other are queued, each with a response as
    [HTTPResponse{}] makes it, and written to the socket in the order of the
    calls.  The current request is set by the first call on an empty
    pipeline only, and the time of the last activity is that of the last
    call. *)
Theorem SendRequest_all_in_order blank requests :
  ∀ (p : HTTPClientPipeline.t),
    let p' := SendRequest_all order blank requests p in
    m_pipeline p' = m_pipeline p ++ ((λ x, (x.1, blank)) <$> requests) ∧
    m_effects p'
    = m_effects p
      ++ ((λ x, SocketSend (HTTPRequest.ToString order x.1)) <$> requests) ∧
    m_current_request p'
    = match m_pipeline p, requests with
      | [], x :: _ => x.1
      | _, _ => m_current_request p
      end ∧
    m_last_activity p' = default (m_last_activity p) (last requests.*2).
Proof.
  unfold SendRequest_all.
  induction requests as [|x requests IH]; intros p; cbv zeta.
  - cbn [foldl fmap list_fmap]. rewrite !app_nil_r. by destruct (m_pipeline p).
  - cbn [foldl]. destruct (IH (SendRequest order blank x.1 x.2 p))
      as (Hpipeline & Heffects & Hcurrent & Hactivity).
    cbv zeta in Hpipeline, Heffects, Hcurrent, Hactivity.
    rewrite Hpipeline, Heffects, Hcurrent, Hactivity. clear.
    rewrite !fmap_cons, SendRequest_pipeline, SendRequest_effects,
      SendRequest_current, SendRequest_activity.
    rewrite <- !app_assoc. split; [done|]. split; [done|]. split.
    + destruct (m_pipeline p) as [|y l]; cbn [app]; [by destruct requests|].
      done.
    + rewrite last_cons. by destruct (last requests.*2).
Qed.

End Callbacks.

(** * A request and its response *)

Section Cycle.

Import HTTPClientPipeline.

Variables (order : header_order) (throws : string → bool).
Variables (blank : HTTPResponse) (request : HTTPRequest).

Lemma find_single q r :
  single request q r →
  find (m_current_request q) (m_pipeline q) = Some (0%nat, (request, r)).
Proof.
  intros [-> ->]. unfold find. cbn [list_find].
  rewrite decide_True; [done|]. apply HTTPRequest_eqb_refl.
Qed.

Lemma on_response_single f q r :
  single request q r → single request (on_response 0 f q) (f r).
Proof. intros [Hp Hc]. split; [|done]. unfold on_response. simpl. by rewrite Hp. Qed.

Lemma add_header_value field r h :
  HTTPResponse.GetHeaderValue field (add_header r h)
  = if decide (h.1 = field) then HTTPResponse.GetHeaderValue h.1 r +:+ h.2
    else HTTPResponse.GetHeaderValue field r.
Proof.
  unfold add_header, HTTPResponse.GetHeaderValue, HTTPResponse.on_message,
    HTTPMessage.GetHeaderValue, HTTPMessage.SetHeaderValue. simpl.
  rewrite lookup_insert. by case_decide.
Qed.

Lemma foldl_add_header_value field headers :
  ∀ r, HTTPResponse.GetHeaderValue field (foldl add_header r headers)
       = HTTPResponse.GetHeaderValue field r +:+ join (values_of field headers).
Proof.
  unfold values_of.
  induction headers as [|h headers IH]; intros r.
  - cbn [foldl]. simpl. by rewrite string_app_nil_r.
  - cbn [foldl]. rewrite IH, add_header_value, filter_cons.
    case_decide as Hh; [|done]. rewrite fmap_cons. cbn [join foldr].
    subst field. by rewrite string_app_assoc.
Qed.

Lemma foldl_add_header_rest headers :
  ∀ r, let r' := foldl add_header r headers in
       m_status r' = m_status r ∧ m_http_version r' = m_http_version r ∧
       m_body (response_message r') = m_body (response_message r) ∧
       m_header_complete (response_message r')
       = m_header_complete (response_message r) ∧
       m_body_complete (response_message r')
       = m_body_complete (response_message r).
Proof.
  induction headers as [|h headers IH]; intros r; [done|].
  cbn [foldl]. cbv zeta. destruct (IH (add_header r h)) as (-> & -> & -> & -> & ->).
  done.
Qed.

Lemma deliver_header_pair h tail q r :
  single request q r →
  ∃ q', deliver_all order throws (HeaderField h.1 :: HeaderValue h.2 :: tail) q
        = deliver_all order throws tail q' ∧
        single request q' (add_header r (field_prefix q +:+ h.1, h.2)) ∧
        m_header_field_complete q' = true.
Proof.
  intros Hsingle.
  set (q1 := (OnHeaderField h.1 q).2).
  assert (single request q1 r ∧ m_last_header_field q1 = field_prefix q +:+ h.1)
    as [Hsingle1 Hlast1].
  { unfold q1, OnHeaderField, field_prefix. destruct Hsingle as [Hp Hc].
    by destruct q as [? ? ? ? ? ? last []]. }
  exists (on_response 0
            (λ response, add_header response (field_prefix q +:+ h.1, h.2))
            (with_header_field_complete true q1)).
  split; [|split; [|done]].
  - cbn [deliver_all deliver]. fold q1.
    change (OnHeaderField h.1 q) with (0, q1).
    cbn [bool_decide decide_rel]. rewrite bool_decide_eq_true_2 by done.
    unfold OnHeaderValue. cbv zeta.
    change (m_current_request (with_header_field_complete true q1))
      with (m_current_request q1).
    change (m_pipeline (with_header_field_complete true q1)) with (m_pipeline q1).
    change (m_last_header_field (with_header_field_complete true q1))
      with (m_last_header_field q1).
    rewrite (find_single q1 r Hsingle1), Hlast1.
    rewrite bool_decide_eq_true_2 by done. done.
  - apply (on_response_single
             (λ response, add_header response (field_prefix q +:+ h.1, h.2)) _ r).
    by destruct Hsingle1.
Qed.

Lemma deliver_headers headers tail :
  ∀ q r,
    single request q r →
    m_header_field_complete q = true →
    ∃ q', deliver_all order throws
            (flat_map (λ h, [HeaderField h.1; HeaderValue h.2]) headers ++ tail) q
          = deliver_all order throws tail q' ∧
          single request q' (foldl add_header r headers).
Proof.
  induction headers as [|h headers IH]; intros q r Hsingle Hflag.
  - by exists q.
  - destruct (deliver_header_pair h
                (flat_map (λ h, [HeaderField h.1; HeaderValue h.2]) headers ++ tail)
                q r Hsingle) as (q1 & Hq1 & Hsingle1 & Hflag1).
    unfold field_prefix in Hsingle1. rewrite Hflag in Hsingle1.
    change (EmptyString +:+ h.1, h.2) with (h.1, h.2) in Hsingle1.
    rewrite <- surjective_pairing in Hsingle1.
    destruct (IH q1 (add_header r h) Hsingle1 Hflag1) as (q' & Hq' & Hsingle').
    exists q'. split; [|done].
    cbn [flat_map app]. by rewrite Hq1.
Qed.

Lemma deliver_headers_named headers tail q r :
  single request q r →
  ∃ q', deliver_all order throws
          (flat_map (λ h, [HeaderField h.1; HeaderValue h.2]) headers ++ tail) q
        = deliver_all order throws tail q' ∧
        single request q' (foldl add_header r (as_named q headers)).
Proof.
  intros Hsingle. destruct headers as [|h headers]; [by exists q|].
  destruct (deliver_header_pair h
              (flat_map (λ h, [HeaderField h.1; HeaderValue h.2]) headers ++ tail)
              q r Hsingle) as (q1 & Hq1 & Hsingle1 & Hflag1).
  destruct (deliver_headers headers tail q1 _ Hsingle1 Hflag1)
    as (q' & Hq' & Hsingle').
  exists q'. split; [|done].
  cbn [flat_map app]. by rewrite Hq1.
Qed.

Lemma find_request r :
  find request [(request, r)] = Some (0%nat, (request, r)).
Proof.
  unfold find. cbn [list_find].
  rewrite decide_True; [done|]. apply HTTPRequest_eqb_refl.
Qed.

(** X13.  A request sent on an empty pipeline, the events of its response, and
    [GetResponse]: the callbacks all return 0, and the response handed out is
    complete, with the status and the body that arrived appended to those of
    [HTTPResponse{}], and every header field reading as the values that
    arrived for it, one after the other.  The fields are those that
    [OnHeaderField] names: what the pipeline still holds of an unfinished
    field name goes in front of the first name, and the names are as they
    arrived when it holds none or a header value came last.  The HTTP version
    is never set.  The element is gone from the pipeline, and the current
    request is as [HTTPRequest{}] makes it. *)
Theorem response_is_assembled now status headers body (p : HTTPClientPipeline.t) :
  m_pipeline p = [] →
  (let content_length :=
     HTTPResponse.GetHeaderValue "Content-Length" blank
     +:+ join (values_of "Content-Length" (as_named p headers)) in
   content_length ≠ EmptyString → throws content_length = false) →
  ∃ p',
    deliver_all order throws (response_events status headers body)
      (SendRequest order blank request now p) = Some p' ∧
    m_current_request p' = HTTPRequest.ctor ∧
    let r := GetResponse blank request p' in
    HTTPResponse.GetStatus r.1 = HTTPResponse.GetStatus blank +:+ status ∧
    HTTPResponse.GetHTTPVersion r.1 = HTTPResponse.GetHTTPVersion blank ∧
    (∀ field, HTTPResponse.GetHeaderValue field r.1
              = HTTPResponse.GetHeaderValue field blank
                +:+ join (values_of field (as_named p headers))) ∧
    (m_header_field_complete p = true ∨ m_last_header_field p = EmptyString →
     as_named p headers = headers) ∧
    HTTPResponse.GetBody r.1 = HTTPResponse.GetBody blank +:+ body ∧
    HTTPResponse.IsComplete r.1 = true ∧
    m_pipeline r.2 = [].
Proof.
  intros Hempty Hthrows. cbv zeta in Hthrows.
  set (p0 := SendRequest order blank request now p).
  assert (single request p0 blank) as Hs0.
  { split; unfold p0.
    - by rewrite SendRequest_pipeline, Hempty.
    - by rewrite SendRequest_current, Hempty. }
  assert (∀ f, as_named (on_response 0 f p0) headers = as_named p headers)
    as Hnamed.
  { intros f. unfold as_named, field_prefix, p0, SendRequest.
    by destruct (m_pipeline p). }
  unfold response_events. cbn [deliver_all deliver].
  unfold OnStatus. rewrite (find_single p0 blank Hs0).
  rewrite bool_decide_eq_true_2 by done.
  set (fS := λ response,
               HTTPResponse.SetStatus (HTTPResponse.GetStatus response +:+ status)
                 response).
  destruct (deliver_headers_named headers
              [HeadersComplete; Body body; MessageComplete]
              (on_response 0 fS p0) (fS blank)
              (on_response_single fS p0 blank Hs0)) as (q2 & -> & Hs2).
  rewrite Hnamed in Hs2.
  set (r2 := foldl add_header (fS blank) (as_named p headers)) in *.
  destruct (foldl_add_header_rest (as_named p headers) (fS blank))
    as (Hstatus & Hversion & Hbody & Hhc & Hbc).
  cbv zeta in Hstatus, Hversion, Hbody, Hhc, Hbc. fold r2 in Hstatus, Hversion, Hbody.
  cbn [deliver_all deliver].
  unfold OnHeadersComplete. rewrite (find_single q2 r2 Hs2). cbv zeta. cbn [snd].
  set (fH := HTTPResponse.on_message HTTPMessage.SetHeaderComplete).
  assert (HTTPResponse.GetHeaderValue "Content-Length" (fH r2)
          = HTTPResponse.GetHeaderValue "Content-Length" blank
            +:+ join (values_of "Content-Length" (as_named p headers))) as ->.
  { change (HTTPResponse.GetHeaderValue "Content-Length" (fH r2))
      with (HTTPResponse.GetHeaderValue "Content-Length" r2).
    unfold r2. by rewrite foldl_add_header_value. }
  assert ((if negb (bool_decide
                      (HTTPResponse.GetHeaderValue "Content-Length" blank
                       +:+ join (values_of "Content-Length" (as_named p headers)) = EmptyString))
           then if throws (HTTPResponse.GetHeaderValue "Content-Length" blank
                           +:+ join (values_of "Content-Length" (as_named p headers)))
                then None else Some (0, on_response 0 fH q2)
           else Some (0, on_response 0 fH q2))
          = Some (0, on_response 0 fH q2)) as ->.
  { case_bool_decide as Hcl; cbn [negb]; [done|]. by rewrite Hthrows. }
  rewrite bool_decide_eq_true_2 by done.
  pose proof (on_response_single fH q2 r2 Hs2) as Hs3.
  unfold OnBody. rewrite (find_single _ _ Hs3).
  rewrite bool_decide_eq_true_2 by done.
  set (fB := λ response,
               let body0 := HTTPResponse.GetBody response in
               let body0 := body0 +:+ body in
               HTTPResponse.on_message (HTTPMessage.SetBody body0) response).
  pose proof (on_response_single fB _ _ Hs3) as Hs4.
  unfold OnMessageComplete. rewrite (find_single _ _ Hs4). cbv zeta. cbn [snd].
  set (fC := HTTPResponse.on_message HTTPMessage.SetBodyComplete).
  pose proof (on_response_single fC _ _ Hs4) as Hs5.
  set (q5 := on_response 0 fC _) in *.
  set (q5' := if bool_decide _ then Reconnect order q5 else q5).
  assert (m_pipeline q5' = [(request, fC (fB (fH r2)))]) as Hq5'.
  { unfold q5'. destruct (bool_decide _); [rewrite Reconnect_pipeline|];
      by destruct Hs5. }
  rewrite Hq5'. cbn [lookup list_lookup].
  rewrite bool_decide_eq_true_2 by done.
  eexists. split; [done|]. split; [done|].
  unfold GetResponse. cbn [m_pipeline with_current_request]. rewrite Hq5'.
  rewrite find_request. cbn [snd].
  assert (HTTPResponse.IsComplete (fC (fB (fH r2))) = true) as -> by done.
  cbn [negb fst snd m_pipeline with_pipeline delete list_delete].
  split; [|split; [|split; [|split; [|split; [|done]]]]].
  - change (HTTPResponse.GetStatus (fC (fB (fH r2)))) with (m_status r2).
    by rewrite Hstatus.
  - change (HTTPResponse.GetHTTPVersion (fC (fB (fH r2))))
      with (m_http_version r2).
    by rewrite Hversion.
  - intros field.
    change (HTTPResponse.GetHeaderValue field (fC (fB (fH r2))))
      with (HTTPResponse.GetHeaderValue field r2).
    unfold r2. by rewrite foldl_add_header_value.
  - unfold as_named, field_prefix. destruct headers as [|[name value] rest]; [done|].
    intros [-> | ->]; [done|]. by destruct (m_header_field_complete p).
  - change (HTTPResponse.GetBody (fC (fB (fH r2))))
      with (m_body (response_message r2) +:+ body).
    by rewrite Hbody.
Qed.

End Cycle.

(** * The client *)

Section Client.

Variables (Resolve : string → list IpAddress) (order : header_order).
Variable blank : HTTPResponse.

Implicit Types (c : HTTPClient.t).

Lemma on_pipeline_lookup i f c j :
  HTTPClient.m_pipelines (HTTPClient.on_pipeline i f c) !! j
  = if decide (i = j)
    then (λ x, (f x.1.1, x.1.2, x.2)) <$> HTTPClient.m_pipelines c !! j
    else HTTPClient.m_pipelines c !! j.
Proof.
  unfold HTTPClient.on_pipeline. simpl. rewrite list_lookup_alter.
  by case_decide; simplify_eq.
Qed.

Lemma on_pipeline_hosts i f c : hosts (HTTPClient.on_pipeline i f c) = hosts c.
Proof.
  unfold hosts. apply list_eq. intros j.
  rewrite !list_lookup_fmap, on_pipeline_lookup.
  case_decide; [|done]. by destruct (HTTPClient.m_pipelines c !! j).
Qed.

Lemma find_host_None address port c :
  HTTPClient.find address port (HTTPClient.m_pipelines c) = None →
  (address, port) ∉ hosts c.
Proof.
  unfold HTTPClient.find, hosts. intros Hnone Hin.
  apply list_elem_of_fmap in Hin as (x & Hx & Hin).
  rewrite list_find_None, Forall_forall in Hnone.
  apply (Hnone x Hin). by simplify_eq.
Qed.

Lemma apply_call_hosts c call :
  hosts (apply_call Resolve order blank c call) = hosts c ∨
  ∃ address port, ((address, port) ∉ hosts c) ∧
                  (hosts (apply_call Resolve order blank c call)
                   = hosts c ++ [(address, port)]).
Proof.
  destruct call as [request address port secure created now|request address port
                    |address certificate common_name|timeout]; cbn [apply_call].
  - unfold HTTPClient.SendRequest.
    destruct (Resolve address) as [|front rest]; [by left|].
    destruct (HTTPClient.find address port (HTTPClient.m_pipelines c))
      as [[i x]|] eqn:Hfind.
    + left. apply on_pipeline_hosts.
    + right. exists address, port. split; [by apply find_host_None|].
      rewrite on_pipeline_hosts. unfold hosts. simpl. by rewrite fmap_app.
  - left. unfold HTTPClient.GetResponse.
    destruct (HTTPClient.find _ _ _) as [[i x]|]; [|done].
    destruct (HTTPClientPipeline.GetResponse _ _ _) as [response pipeline].
    apply on_pipeline_hosts.
  - left. unfold HTTPClient.LoadCertificate. cbv zeta. cbn [HTTPClient.m_pipelines].
    destruct (HTTPClient.find_address _ _) as [[i x]|]; [|done].
    by rewrite on_pipeline_hosts.
  - by left.
Qed.

(** X14.  Whatever the user calls on a client, it never holds two pipelines for
    the same address and port, and the pipelines it holds stay where they
    are: new ones come after them.  (Pipelines are erased by [Update]
    only.) *)
Theorem one_pipeline_per_host calls :
  ∀ c, NoDup (hosts c) →
       NoDup (hosts (foldl (apply_call Resolve order blank) c calls)) ∧
       hosts c `prefix_of` hosts (foldl (apply_call Resolve order blank) c calls).
Proof.
  induction calls as [|call calls IH]; intros c Hc; [done|].
  cbn [foldl].
  assert (NoDup (hosts (apply_call Resolve order blank c call)) ∧
          hosts c `prefix_of` hosts (apply_call Resolve order blank c call))
    as [Hnodup Hprefix].
  { destruct (apply_call_hosts c call) as [->|(address & port & Hnew & ->)].
    - done.
    - split; [|by apply prefix_app_r].
      apply NoDup_app. split; [done|]. split; [|apply NoDup_singleton].
      intros x Hx ->%list_elem_of_singleton. done. }
  destruct (IH _ Hnodup) as [? ?]. split; [done|]. by etrans.
Qed.

(** X15.  A request for an address and port the client has a pipeline for goes to
    that pipeline as it is: whether the call asks for a secure connection,
    and what the address resolves to by now, plays no part.  When the
    address does not resolve at all, nothing happens. *)
Theorem SendRequest_to_known_host request address port secure created now c i x :
  HTTPClient.find address port (HTTPClient.m_pipelines c) = Some (i, x) →
  let c' := HTTPClient.SendRequest Resolve order blank request address port
              secure created now c in
  (Resolve address = [] → c' = c) ∧
  (∀ secure' created',
     HTTPClient.SendRequest Resolve order blank request address port
       secure' created' now c = c') ∧
  (Resolve address ≠ [] →
   HTTPClient.m_pipelines c'
   = <[i := (HTTPClientPipeline.SendRequest order blank request now x.1.1,
             address, port)]> (HTTPClient.m_pipelines c) ∧
   HTTPClient.m_certificates c' = HTTPClient.m_certificates c ∧
   HTTPClient.m_timeout_value c' = HTTPClient.m_timeout_value c).
Proof.
  intros Hfind. cbv zeta. unfold HTTPClient.SendRequest.
  destruct (Resolve address) as [|front rest]; [done|].
  split; [done|]. rewrite Hfind. split; [done|]. intros _.
  apply list_find_Some in Hfind as (Hx & [<- <-] & _).
  split; [|done]. unfold HTTPClient.on_pipeline. simpl.
  apply list_eq. intros j. rewrite list_lookup_alter, list_lookup_insert.
  pose proof (lookup_lt_Some _ _ _ Hx) as Hlt.
  destruct (decide (i = j)) as [<-|Hij].
  - rewrite decide_True by done. by rewrite Hx.
  - rewrite decide_False; [done|]. by intros [? _].
Qed.

(** X16.  A request for an address and port the client has no pipeline for makes
    one, after those there are.  What is done to its socket: a plain
    connection is created and connected; a secure one is created, and
    connected only when a certificate is stored for the address, after the
    certificate is added.  The request is sent in every case, also on a
    secure connection that was never connected. *)
Theorem SendRequest_to_new_host request address port secure created now c
    front rest :
  HTTPClient.find address port (HTTPClient.m_pipelines c) = None →
  Resolve address = front :: rest →
  let c' := HTTPClient.SendRequest Resolve order blank request address port
              secure created now c in
  let endpoint := mkEndpoint front port in
  ∃ pipeline,
    HTTPClient.m_pipelines c'
    = HTTPClient.m_pipelines c ++ [(pipeline, address, port)] ∧
    HTTPClientPipeline.m_secure pipeline = secure ∧
    HTTPClientPipeline.m_remote_endpoint pipeline = endpoint ∧
    HTTPClientPipeline.m_timeout_value pipeline = HTTPClient.m_timeout_value c ∧
    HTTPClientPipeline.m_pipeline pipeline = [(request, blank)] ∧
    HTTPClientPipeline.m_current_request pipeline = request ∧
    HTTPClientPipeline.m_last_activity pipeline = now ∧
    HTTPClientPipeline.m_effects pipeline
    = (if secure
       then [SocketCreate true; ParserInit]
            ++ match HTTPClient.m_certificates c !! address with
               | Some (certificate, common_name) =>
                   (if decide (common_name = EmptyString) then []
                    else [SocketSetPeerCommonName common_name])
                   ++ [SocketAddTrustedCertificate certificate;
                       SocketConnect endpoint]
               | None => []
               end
       else [SocketCreate false; SocketConnect endpoint; ParserInit])
      ++ [SocketSend (HTTPRequest.ToString order request)].
Proof.
  intros Hfind Hresolve. cbv zeta. unfold HTTPClient.SendRequest.
  rewrite Hresolve, Hfind. unfold HTTPClient.on_pipeline.
  cbn [HTTPClient.m_pipelines HTTPClient.with_pipelines].
  rewrite alter_app_r_alt by done. rewrite Nat.sub_diag.
  cbn [alter list_alter fst snd].
  eexists. split; [done|].
  destruct secure.
  - destruct (HTTPClient.m_certificates c !! address) as [[certificate name]|].
    + unfold HTTPClientPipeline.LoadCertificate. cbn.
      destruct (decide (name = EmptyString)) as [->|Hname].
      * done.
      * rewrite bool_decide_eq_false_2 by done. done.
    + done.
  - by destruct (HTTPClient.m_certificates c !! address) as [[certificate name]|].
Qed.

(** X17.  [LoadCertificate] stores the certificate for the address and hands it
    to the first pipeline of that address, whatever its port, and to no
    other: every other pipeline is left exactly as it is, be it of another
    address or one that comes after another pipeline of the same address.
    No pipeline is added or removed, the timeout is kept, and a pipeline
    that is not secure is never changed. *)
Theorem LoadCertificate_reaches_first_pipeline address certificate common_name c :
  let c' := HTTPClient.LoadCertificate address certificate common_name c in
  HTTPClient.m_certificates c'
  = <[address := (certificate, common_name)]> (HTTPClient.m_certificates c) ∧
  HTTPClient.m_timeout_value c' = HTTPClient.m_timeout_value c ∧
  length (HTTPClient.m_pipelines c') = length (HTTPClient.m_pipelines c) ∧
  (∀ j y, HTTPClient.m_pipelines c !! j = Some y →
          y.1.2 = address →
          (∀ k z, (k < j)%nat → HTTPClient.m_pipelines c !! k = Some z →
                  z.1.2 ≠ address) →
          HTTPClient.m_pipelines c' !! j
          = Some (HTTPClientPipeline.LoadCertificate certificate common_name y.1.1,
                  y.1.2, y.2)) ∧
  (∀ j y, HTTPClient.m_pipelines c !! j = Some y →
          y.1.2 ≠ address ∨
          (∃ k z, (k < j)%nat ∧ HTTPClient.m_pipelines c !! k = Some z ∧
                  z.1.2 = address) →
          HTTPClient.m_pipelines c' !! j = Some y) ∧
  (∀ j y, HTTPClient.m_pipelines c !! j = Some y →
          HTTPClientPipeline.m_secure y.1.1 = false →
          HTTPClient.m_pipelines c' !! j = Some y).
Proof.
  cbv zeta. unfold HTTPClient.LoadCertificate. cbv zeta.
  cbn [HTTPClient.m_pipelines].
  destruct (HTTPClient.find_address address (HTTPClient.m_pipelines c))
    as [[k z]|] eqn:Hfind.
  - apply list_find_Some in Hfind as (Hz & Haddress & Hfirst).
    split; [done|]. split; [done|]. split; [|split; [|split]].
    + unfold HTTPClient.on_pipeline. simpl. apply length_alter.
    + intros j y Hy Hya Hnone. rewrite on_pipeline_lookup.
      cbn [HTTPClient.m_pipelines].
      assert (k = j) as ->.
      { destruct (lt_eq_lt_dec k j) as [[Hlt|Heq]|Hgt]; [|done|].
        - by destruct (Hnone k z Hlt Hz).
        - by destruct (Hfirst j y Hy Hgt). }
      rewrite decide_True by done. by rewrite Hy.
    + intros j y Hy Hother. rewrite on_pipeline_lookup.
      cbn [HTTPClient.m_pipelines].
      rewrite decide_False; [done|]. intros ->.
      destruct Hother as [Hne|(k' & z' & Hlt & Hz' & Hza)].
      * by simplify_eq.
      * by destruct (Hfirst k' z' Hz' Hlt).
    + intros j y Hy Hsecure. rewrite on_pipeline_lookup.
      cbn [HTTPClient.m_pipelines]. rewrite Hy.
      case_decide; [|done]. cbn [fmap option_fmap option_map].
      unfold HTTPClientPipeline.LoadCertificate. rewrite Hsecure.
      by destruct y as [[? ?] ?].
  - split; [done|]. split; [done|]. split; [done|]. split; [|split].
    + intros j y Hy Hya _. exfalso.
      unfold HTTPClient.find_address in Hfind.
      rewrite list_find_None, Forall_forall in Hfind.
      apply (Hfind y); [|done]. by apply (list_elem_of_lookup_2 _ j).
    + by intros j y Hy _.
    + by intros j y Hy _.
Qed.

End Client.

(** * More on the object *)

Section Object.

Implicit Types (w : world) (t o : SyncedObject).


(** X19.  [SetID] gives the object the identifier and does nothing else: no
    synchronizer is told, and the counter is not moved, so that the next
    object constructed is assigned what the counter gives, also when a live
    object was just set to that very identifier. *)
Theorem SetID_does_not_reserve (changed : bool) (this that : addr) (id : Z) w t :
  objects w !! this = Some t →
  objects w !! that = None →
  ∃ w',
    (SyncedObject.SetID this id >> SyncedObject.ctor changed that) w
    = Some (tt, w') ∧
    objects w' !! this = Some (with_id id t) ∧
    objects w' !! that
    = Some (SyncedObject.init (SyncedObject.increment (m_last_id w)) changed) ∧
    m_last_id w' = SyncedObject.increment (m_last_id w) ∧
    calls w' = calls w ∧
    synchronizers w' = synchronizers w ∧
    (id = SyncedObject.increment (m_last_id w) → ¬ live_ids_distinct w').
Proof.
  intros Hthis Hfree. assert (this ≠ that) as Hne by congruence.
  unfold_method. rewrite Hthis. simpl.
  rewrite lookup_insert_ne by done. rewrite Hfree.
  eexists. split; [reflexivity|]. simpl.
  rewrite lookup_insert_ne by done. rewrite !lookup_insert_eq.
  repeat (split; [done|]).
  intros -> Hdistinct. apply Hne.
  eapply (Hdistinct this that); simpl.
  - rewrite lookup_insert_ne by done. apply lookup_insert_eq.
  - apply lookup_insert_eq.
  - done.
Qed.


End Object.

(** * The theorems at sample exchanges *)

Lemma visits_each_once_order : visits_each_once Exchange.order.
Proof. by intros header. Defined.

Lemma GetHeaderFields_lists_fields_witness :
  visits_each_once Exchange.order ∧
  NoDup (HTTPResponse.GetHeaderFields Exchange.order Exchange.page) ∧
  "Content-Type" ∈ HTTPResponse.GetHeaderFields Exchange.order Exchange.page.
Proof.
  destruct (GetHeaderFields_lists_fields Exchange.order Exchange.page
              visits_each_once_order) as (_ & Hnodup & Hfields).
  split; [exact visits_each_once_order|]. split; [exact Hnodup|].
  apply Hfields. exists "text/html". reflexivity.
Defined.

Lemma visits_each_once_reversed : visits_each_once Exchange.reversed.
Proof. intros header. apply reverse_Permutation. Defined.

Lemma ToString_of_equal_requests_witness :
  visits_each_once Exchange.order ∧
  visits_each_once Exchange.reversed ∧
  HTTPRequest.eqb (Exchange.to_localhost Exchange.index)
    (Exchange.to_localhost Exchange.index_unflagged) = true ∧
  length (Exchange.order
            (m_header (request_message (Exchange.to_localhost Exchange.index))))
  = 2%nat ∧
  header_line
    <$> Exchange.order
          (m_header (request_message (Exchange.to_localhost Exchange.index)))
  ≡ₚ header_line
       <$> Exchange.reversed
             (m_header
                (request_message (Exchange.to_localhost Exchange.index_unflagged))).
Proof.
  assert (HTTPRequest.eqb (Exchange.to_localhost Exchange.index)
            (Exchange.to_localhost Exchange.index_unflagged) = true) as H3
    by reflexivity.
  split; [exact visits_each_once_order|].
  split; [exact visits_each_once_reversed|]. split; [exact H3|].
  split; [reflexivity|].
  exact (proj1 (proj2 (proj2 (ToString_of_equal_requests Exchange.order
                                Exchange.reversed _ _ visits_each_once_order
                                visits_each_once_reversed H3)))).
Defined.


Lemma later_equal_request_is_never_reached_witness :
  HTTPClientPipeline.m_pipeline Exchange.twice !! 0%nat
  = Some (Exchange.index, Exchange.blank) ∧
  HTTPClientPipeline.m_pipeline Exchange.twice !! 1%nat
  = Some (Exchange.index, Exchange.blank) ∧
  (0 < 1)%nat ∧
  HTTPRequest.eqb Exchange.index Exchange.index = true ∧
  ∃ p', deliver_all Exchange.order Exchange.never_throws
          (Exchange.ok ++ Exchange.ok) Exchange.twice = Some p' ∧
        HTTPClientPipeline.m_pipeline p' !! 1%nat
        = Some (Exchange.index, Exchange.blank).
Proof.
  assert (HTTPClientPipeline.m_pipeline Exchange.twice !! 0%nat
          = Some (Exchange.index, Exchange.blank)) as H1 by reflexivity.
  assert (HTTPClientPipeline.m_pipeline Exchange.twice !! 1%nat
          = Some (Exchange.index, Exchange.blank)) as H2 by reflexivity.
  assert (0 < 1)%nat as H3 by lia.
  assert (HTTPRequest.eqb Exchange.index Exchange.index = true) as H4
    by reflexivity.
  destruct (deliver_all Exchange.order Exchange.never_throws
              (Exchange.ok ++ Exchange.ok) Exchange.twice) as [p'|] eqn:H5;
    [|by vm_compute in H5].
  split; [exact H1|]. split; [exact H2|]. split; [exact H3|]. split; [exact H4|].
  exists p'. split; [reflexivity|].
  exact (later_equal_request_is_never_reached Exchange.order
           Exchange.never_throws _ _ _ _ _ _ _ H1 H2 H3 H4 H5).
Defined.

Lemma OnMessageComplete_moves_on_witness :
  HTTPClientPipeline.find (HTTPClientPipeline.m_current_request Exchange.two)
    (HTTPClientPipeline.m_pipeline Exchange.two)
  = Some (0%nat, (Exchange.index, Exchange.blank)) ∧
  HTTPClientPipeline.m_current_request
    (HTTPClientPipeline.OnMessageComplete Exchange.order Exchange.two).2
  = Exchange.about.
Proof.
  assert (HTTPClientPipeline.find
            (HTTPClientPipeline.m_current_request Exchange.two)
            (HTTPClientPipeline.m_pipeline Exchange.two)
          = Some (0%nat, (Exchange.index, Exchange.blank))) as H1 by reflexivity.
  split; [exact H1|].
  exact (proj1 (proj2 (proj2 (OnMessageComplete_moves_on Exchange.order _ _ _ H1)))).
Defined.



Lemma response_is_assembled_witness :
  HTTPClientPipeline.m_pipeline Exchange.interrupted = [] ∧
  (HTTPResponse.GetHeaderValue "Content-Length" Exchange.blank
   +:+ join (values_of "Content-Length"
               (as_named Exchange.interrupted Exchange.cookies)) ≠ EmptyString →
   Exchange.never_throws
     (HTTPResponse.GetHeaderValue "Content-Length" Exchange.blank
      +:+ join (values_of "Content-Length"
                  (as_named Exchange.interrupted Exchange.cookies))) = false) ∧
  ∃ p',
    deliver_all Exchange.order Exchange.never_throws
      (response_events "200 OK" Exchange.cookies "ok")
      (HTTPClientPipeline.SendRequest Exchange.order Exchange.blank
         Exchange.index 1 Exchange.interrupted) = Some p' ∧
    HTTPResponse.GetHeaderValue "X-Set-Cookie"
      (HTTPClientPipeline.GetResponse Exchange.blank Exchange.index p').1
    = "a=1" ∧
    HTTPResponse.GetHeaderValue "Set-Cookie"
      (HTTPClientPipeline.GetResponse Exchange.blank Exchange.index p').1
    = "b=2c=3" ∧
    HTTPResponse.GetHeaderValue "Content-Length"
      (HTTPClientPipeline.GetResponse Exchange.blank Exchange.index p').1
    = "2" ∧
    HTTPResponse.IsComplete
      (HTTPClientPipeline.GetResponse Exchange.blank Exchange.index p').1 = true.
Proof.
  assert (HTTPClientPipeline.m_pipeline Exchange.interrupted = []) as H1
    by reflexivity.
  assert (HTTPResponse.GetHeaderValue "Content-Length" Exchange.blank
          +:+ join (values_of "Content-Length"
                      (as_named Exchange.interrupted Exchange.cookies))
          ≠ EmptyString →
          Exchange.never_throws
            (HTTPResponse.GetHeaderValue "Content-Length" Exchange.blank
             +:+ join (values_of "Content-Length"
                         (as_named Exchange.interrupted Exchange.cookies)))
          = false) as H2
    by (intros _; reflexivity).
  destruct (response_is_assembled Exchange.order Exchange.never_throws
              Exchange.blank Exchange.index 1 "200 OK" Exchange.cookies "ok"
              Exchange.interrupted H1 H2)
    as (p' & Hall & _ & _ & _ & Hheader & _ & _ & Hcomplete & _).
  split; [exact H1|]. split; [exact H2|].
  exists p'. split; [exact Hall|]. split; [exact (Hheader "X-Set-Cookie")|].
  split; [exact (Hheader "Set-Cookie")|].
  split; [exact (Hheader "Content-Length")|]. exact Hcomplete.
Defined.

Lemma one_pipeline_per_host_witness :
  NoDup (hosts Exchange.client) ∧
  NoDup (hosts (foldl (apply_call Exchange.Resolve Exchange.order Exchange.blank)
                  Exchange.client Exchange.session)) ∧
  hosts (foldl (apply_call Exchange.Resolve Exchange.order Exchange.blank)
           Exchange.client Exchange.session)
  = [("localhost", 80); ("localhost", 443)].
Proof.
  assert (NoDup (hosts Exchange.client)) as H1 by constructor.
  split; [exact H1|]. split; [|reflexivity].
  exact (proj1 (one_pipeline_per_host Exchange.Resolve Exchange.order
                  Exchange.blank Exchange.session Exchange.client H1)).
Defined.

Lemma SendRequest_to_known_host_witness :
  HTTPClient.find "localhost" 80 (HTTPClient.m_pipelines Exchange.known)
  = Some (0%nat,
          (HTTPClientPipeline.SendRequest Exchange.order Exchange.blank
             Exchange.index 1 Exchange.fresh, "localhost", 80)) ∧
  Exchange.Resolve "localhost" ≠ [] ∧
  HTTPClient.m_pipelines
    (HTTPClient.SendRequest Exchange.Resolve Exchange.order Exchange.blank
       Exchange.about "localhost" 80 true 2 3 Exchange.known)
  = [(HTTPClientPipeline.SendRequest Exchange.order Exchange.blank
        Exchange.about 3
        (HTTPClientPipeline.SendRequest Exchange.order Exchange.blank
           Exchange.index 1 Exchange.fresh), "localhost", 80)].
Proof.
  assert (HTTPClient.find "localhost" 80 (HTTPClient.m_pipelines Exchange.known)
          = Some (0%nat,
                  (HTTPClientPipeline.SendRequest Exchange.order Exchange.blank
                     Exchange.index 1 Exchange.fresh, "localhost", 80))) as H1
    by reflexivity.
  assert (Exchange.Resolve "localhost" ≠ []) as H2 by done.
  split; [exact H1|]. split; [exact H2|].
  exact (proj1 (proj2 (proj2 (SendRequest_to_known_host Exchange.Resolve
                                Exchange.order Exchange.blank Exchange.about
                                "localhost" 80 true 2 3 Exchange.known _ _ H1))
                  H2)).
Defined.

Lemma SendRequest_to_new_host_witness :
  HTTPClient.find "localhost" 443 (HTTPClient.m_pipelines Exchange.known) = None ∧
  Exchange.Resolve "localhost" = [Exchange.localhost] ∧
  ∃ pipeline,
    HTTPClient.m_pipelines
      (HTTPClient.SendRequest Exchange.Resolve Exchange.order Exchange.blank
         Exchange.index "localhost" 443 true 4 5 Exchange.known)
    = HTTPClient.m_pipelines Exchange.known ++ [(pipeline, "localhost", 443)] ∧
    HTTPClientPipeline.m_effects pipeline
    = [SocketCreate true; ParserInit;
       SocketSend (HTTPRequest.ToString Exchange.order Exchange.index)].
Proof.
  assert (HTTPClient.find "localhost" 443 (HTTPClient.m_pipelines Exchange.known)
          = None) as H1 by reflexivity.
  assert (Exchange.Resolve "localhost" = [Exchange.localhost]) as H2
    by reflexivity.
  destruct (SendRequest_to_new_host Exchange.Resolve Exchange.order
              Exchange.blank Exchange.index "localhost" 443 true 4 5
              Exchange.known Exchange.localhost [] H1 H2)
    as (pipeline & Hpipelines & _ & _ & _ & _ & _ & _ & Heffects).
  split; [exact H1|]. split; [exact H2|].
  exists pipeline. split; [exact Hpipelines|exact Heffects].
Defined.


Lemma SetID_does_not_reserve_witness :
  objects Sample.one_attached !! 2%positive = Some (Sample.attached 9 7) ∧
  objects Sample.one_attached !! 1%positive = None ∧
  ∃ w',
    (SyncedObject.SetID 2 8 >> SyncedObject.ctor false 1) Sample.one_attached
    = Some (tt, w') ∧
    objects w' !! 2%positive = Some (Sample.attached 9 8) ∧
    objects w' !! 1%positive = Some (Sample.detached 8) ∧
    calls w' = [] ∧
    ¬ live_ids_distinct w'.
Proof.
  assert (objects Sample.one_attached !! 2%positive
          = Some (Sample.attached 9 7)) as H1 by reflexivity.
  assert (objects Sample.one_attached !! 1%positive = None) as H2 by reflexivity.
  destruct (SetID_does_not_reserve false 2 1 8 Sample.one_attached _ H1 H2)
    as (w' & Hrun & Hthis & Hthat & _ & Hcalls & _ & Hshared).
  split; [exact H1|]. split; [exact H2|].
  exists w'. split; [exact Hrun|]. split; [exact Hthis|]. split; [exact Hthat|].
  split; [exact Hcalls|]. exact (Hshared eq_refl).
Defined.

